(** * Session tracking and polling in the GitHub Issues dashboard

    A shallow embedding of the React component [App] of
    [frontend/src/App.tsx] and of its older copy under
    [github-issues-integration/frontend/src/App.tsx]: the component state,
    the three user actions ([loadIssues], [scopeIssue], [completeIssue]),
    the status refresh [checkSessionStatus], the polling timer and the
    [localStorage] persistence effects.

    Every asynchronous function is split at its [await fetch(...)]: the
    [_start] half runs when the function is called and yields the request
    that goes out (if any); the [_finish] half runs when the promise
    settles and receives the outcome of the fetch.  State writes made
    through functional updaters ([setSessions (prev => ...)]) act on the
    state current at that moment, which is the state [_finish] is given. *)

From stdpp Require Import base numbers strings list gmap fin_maps.

Local Open Scope string_scope.
Local Open Scope Z_scope.

(** ** Values *)

(** JavaScript truthiness of a string: every string but the empty one. *)
Definition truthy (s : string) : bool :=
  match s with
  | EmptyString => false
  | String _ _ => true
  end.

(** [o || d] where [o] is a string or [undefined]/[null]. *)
Definition or_default (o : option string) (d : string) : string :=
  match o with
  | Some s => if truthy s then s else d
  | None => d
  end.

Module Issue.
Record label := { name : string; color : string }.

Record t := {
  number : Z;
  title : string;
  body : string;
  state : string;
  html_url : string;
  created_at : string;
  updated_at : string;
  labels : list label
}.
End Issue.

Module Session.
(** [interface Session]; the fields marked [?] are optional. *)
Record t := {
  session_id : string;
  status : string;
  message : option string;
  session_url : option string;
  repo : option string;
  issue_number : option Z;
  confidence_score : option Z;
  action_plan : option string
}.
End Session.

(** ** Network *)

(** What a [catch (err)] clause can receive: an [Error] object with its
    [message], or any other thrown value. *)
Inductive Thrown :=
| ThrownError (message : string)
| ThrownValue.

(** The ways [await fetch(...)] followed by [await response.json()] can go:
    the fetch promise rejects, or a response arrives with its [ok] flag and
    a body that parses to a value or makes [json()] throw. *)
Inductive FetchResult (A : Type) :=
| Rejected (e : Thrown)
| Responded (ok : bool) (json : Thrown + A).
Arguments Rejected {A} e.
Arguments Responded {A} ok json.

(** The body of each [try] block up to the line [const data = ...]:
    [if (!response.ok) throw new Error(notOk)], then the parsed body. *)
Definition awaitJson {A} (notOk : string) (r : FetchResult A) : Thrown + A :=
  match r with
  | Rejected e => inl e
  | Responded false _ => inl (ThrownError notOk)
  | Responded true (inl e) => inl e
  | Responded true (inr data) => inr data
  end.

(** [err instanceof Error ? err.message : fallback] *)
Definition errorMessage (err : Thrown) (fallback : string) : string :=
  match err with
  | ThrownError m => m
  | ThrownValue => fallback
  end.

(** A fetch fails when it reaches the [catch] clause. *)
Definition failed {A} (r : FetchResult A) : Prop :=
  match r with
  | Responded true (inr _) => False
  | _ => True
  end.

Inductive Json :=
| JString (s : string)
| JNumber (n : Z).

(** The requests the component sends.  A JSON body is the list of the
    object literal's properties in source order; [JSON.stringify] writes
    every property whose value is not [undefined]. *)
Inductive Request :=
| GetIssues (repo github_token : string)
| PostJson (path : string) (body : list (string * Json))
| GetSession (session_id devin_api_key : string).

(** The property [key] of a JSON body, [None] when the body has none. *)
Fixpoint property (key : string) (body : list (string * Json)) : option Json :=
  match body with
  | [] => None
  | (k, v) :: rest => if String.eqb k key then Some v else property key rest
  end.

(** ** Component state *)

Record App := {
  repo : string;
  githubToken : string;
  devinApiKey : string;
  issues : list Issue.t;
  loading : bool;
  error : string;
  sessions : gmap Z Session.t;
  configured : bool
}.

Definition setRepo (v : string) (st : App) : App :=
  {| repo := v; githubToken := githubToken st; devinApiKey := devinApiKey st;
     issues := issues st; loading := loading st; error := error st;
     sessions := sessions st; configured := configured st |}.

Definition setGithubToken (v : string) (st : App) : App :=
  {| repo := repo st; githubToken := v; devinApiKey := devinApiKey st;
     issues := issues st; loading := loading st; error := error st;
     sessions := sessions st; configured := configured st |}.

Definition setDevinApiKey (v : string) (st : App) : App :=
  {| repo := repo st; githubToken := githubToken st; devinApiKey := v;
     issues := issues st; loading := loading st; error := error st;
     sessions := sessions st; configured := configured st |}.

Definition setIssues (v : list Issue.t) (st : App) : App :=
  {| repo := repo st; githubToken := githubToken st; devinApiKey := devinApiKey st;
     issues := v; loading := loading st; error := error st;
     sessions := sessions st; configured := configured st |}.

Definition setLoading (v : bool) (st : App) : App :=
  {| repo := repo st; githubToken := githubToken st; devinApiKey := devinApiKey st;
     issues := issues st; loading := v; error := error st;
     sessions := sessions st; configured := configured st |}.

Definition setError (v : string) (st : App) : App :=
  {| repo := repo st; githubToken := githubToken st; devinApiKey := devinApiKey st;
     issues := issues st; loading := loading st; error := v;
     sessions := sessions st; configured := configured st |}.

(** [setSessions (prev => f prev)] *)
Definition setSessions (f : gmap Z Session.t → gmap Z Session.t) (st : App) : App :=
  {| repo := repo st; githubToken := githubToken st; devinApiKey := devinApiKey st;
     issues := issues st; loading := loading st; error := error st;
     sessions := f (sessions st); configured := configured st |}.

Definition setConfigured (v : bool) (st : App) : App :=
  {| repo := repo st; githubToken := githubToken st; devinApiKey := devinApiKey st;
     issues := issues st; loading := loading st; error := error st;
     sessions := sessions st; configured := v |}.

(** [useState] initial values, given what [localStorage.getItem] returns
    for the three keys. *)
Definition initialApp (storedRepo storedToken storedKey : option string) : App :=
  {| repo := or_default storedRepo "";
     githubToken := or_default storedToken "";
     devinApiKey := or_default storedKey "";
     issues := [];
     loading := false;
     error := "";
     sessions := ∅;
     configured := false |}.

(** ** User actions *)

Definition loadIssues_start (st : App) : App * option Request :=
  if negb (truthy (repo st)) || negb (truthy (githubToken st)) then
    (setError "Please enter repository and GitHub token" st, None)
  else
    (setError "" (setLoading true st),
     Some (GetIssues (repo st) (githubToken st))).

Definition loadIssues_finish (r : FetchResult (list Issue.t)) (st : App) : App :=
  setLoading false
    match awaitJson "Failed to fetch issues" r with
    | inr data => setConfigured true (setIssues data st)
    | inl err => setError (errorMessage err "Failed to load issues") st
    end.

Definition scopeIssue_start (issueNumber : Z) (st : App) : App * option Request :=
  if negb (truthy (devinApiKey st)) then
    (setError "Please enter Devin API key" st, None)
  else
    (setError "" (setLoading true st),
     Some (PostJson "/api/scope"
             [("repo", JString (repo st));
              ("issue_number", JNumber issueNumber);
              ("github_token", JString (githubToken st));
              ("devin_api_key", JString (devinApiKey st))])).

Definition scopeIssue_finish (issueNumber : Z) (r : FetchResult Session.t)
    (st : App) : App :=
  setLoading false
    match awaitJson "Failed to scope issue" r with
    | inr data => setSessions (λ prev, <[issueNumber := data]> prev) st
    | inl err => setError (errorMessage err "Failed to scope issue") st
    end.

Definition completeIssue_start (issueNumber : Z) (st : App) : App * option Request :=
  if negb (truthy (devinApiKey st)) then
    (setError "Please enter Devin API key" st, None)
  else
    let sessionId :=
      or_default (Session.session_id <$> sessions st !! issueNumber) "" in
    (setError "" (setLoading true st),
     Some (PostJson "/api/complete"
             [("repo", JString (repo st));
              ("issue_number", JNumber issueNumber);
              ("github_token", JString (githubToken st));
              ("devin_api_key", JString (devinApiKey st));
              ("session_id", JString sessionId)])).

Definition completeIssue_finish (issueNumber : Z) (r : FetchResult Session.t)
    (st : App) : App :=
  setLoading false
    match awaitJson "Failed to complete issue" r with
    | inr data => setSessions (λ prev, <[issueNumber := data]> prev) st
    | inl err => setError (errorMessage err "Failed to complete issue") st
    end.

(** ** Status refresh and polling *)

Definition checkSessionStatus_start (issueNumber : Z) (sessionId : string)
    (st : App) : option Request :=
  if negb (truthy (devinApiKey st)) then None
  else Some (GetSession sessionId (devinApiKey st)).

(** The result carries, next to the state, what the [catch] clause hands
    to [console.error]. *)
Definition checkSessionStatus_finish (issueNumber : Z) (r : FetchResult Session.t)
    (st : App) : App * option Thrown :=
  match awaitJson "Failed to check session status" r with
  | inr data => (setSessions (λ prev, <[issueNumber := data]> prev) st, None)
  | inl err => (st, Some err)
  end.

(** The test of the [forEach] callback. *)
Definition nonTerminal (session : Session.t) : bool :=
  String.eqb (Session.status session) "scoping"
  || String.eqb (Session.status session) "implementing".

(** The body of the [setInterval] callback: the calls
    [checkSessionStatus (Number (issueNumber), session.session_id)] it
    makes over [Object.entries (sessions)].  The calls come in the order of
    [map_to_list], which need not be the order of [Object.entries]; nothing
    below depends on it. *)
Definition intervalCallback (st : App) : list (Z * string) :=
  omap (λ '(issueNumber, session),
          if nonTerminal session
          then Some (issueNumber, Session.session_id session)
          else None)
       (map_to_list (sessions st)).

(** The polling effect: [None] when it returns before [setInterval], else
    the refreshes one firing of the timer starts, each with the request it
    sends. *)
Definition pollTick (st : App) : option (list (Z * option Request)) :=
  if negb (truthy (devinApiKey st)) then None
  else Some ((λ '(issueNumber, sessionId),
               (issueNumber, checkSessionStatus_start issueNumber sessionId st))
             <$> intervalCallback st).

(** The requests that go out on one firing of the timer, each with the
    issue number its refresh belongs to. *)
Definition tickRequests (st : App) : list (Z * Request) :=
  match pollTick st with
  | None => []
  | Some calls => omap (λ '(issueNumber, req), (issueNumber,.) <$> req) calls
  end.

(** ** Buttons *)

(** [disabled={loading || !!session}] *)
Definition scopeDisabled (issueNumber : Z) (st : App) : bool :=
  loading st || bool_decide (is_Some (sessions st !! issueNumber)).

(** [disabled={loading || session?.status === "implementing"}] *)
Definition completeDisabled (issueNumber : Z) (st : App) : bool :=
  loading st ||
  match sessions st !! issueNumber with
  | Some session => String.eqb (Session.status session) "implementing"
  | None => false
  end.

(** [disabled={loading || !repo || !githubToken || !devinApiKey}] *)
Definition connectDisabled (st : App) : bool :=
  loading st || negb (truthy (repo st)) || negb (truthy (githubToken st))
  || negb (truthy (devinApiKey st)).

(** ** The copy under [github-issues-integration/]

    [loadIssues], [scopeIssue], [completeIssue] and the three [disabled]
    expressions are the same text in both files.  The copy differs in the
    status refresh and the polling effect, which have no test of
    [devinApiKey], and in having no [localStorage] code. *)
Module Bundled.

(** [useState('')] three times. *)
Definition initialApp : App := initialApp None None None.

Definition checkSessionStatus_start (issueNumber : Z) (sessionId : string)
    (st : App) : option Request :=
  Some (GetSession sessionId (devinApiKey st)).

Definition pollTick (st : App) : option (list (Z * option Request)) :=
  Some ((λ '(issueNumber, sessionId),
          (issueNumber, checkSessionStatus_start issueNumber sessionId st))
        <$> intervalCallback st).

Definition tickRequests (st : App) : list (Z * Request) :=
  match pollTick st with
  | None => []
  | Some calls => omap (λ '(issueNumber, req), (issueNumber,.) <$> req) calls
  end.

End Bundled.

(** ** The browser around the component *)

(** A request that has been sent and whose promise has not settled, with
    the [issueNumber] its continuation closes over. *)
Inductive Pending :=
| PendingLoad
| PendingScope (issueNumber : Z)
| PendingComplete (issueNumber : Z)
| PendingRefresh (issueNumber : Z).

Record Browser := {
  app : App;
  localStorage : gmap string string;
  inFlight : list Pending;
  network : list Request;
  console : list Thrown
}.

(** [if (value) localStorage.setItem (key, value)] *)
Definition persist (key value : string) (storage : gmap string string)
    : gmap string string :=
  if truthy value then <[key := value]> storage else storage.

(** An effect runs after the first render ([prev = None]) and after every
    render in which its dependency differs from the previous render's. *)
Definition effectRuns (prev : option string) (next : string) : bool :=
  match prev with
  | None => true
  | Some old => negb (String.eqb old next)
  end.

Definition persistenceEffects (prev : option App) (next : App)
    (storage : gmap string string) : gmap string string :=
  let s1 := if effectRuns (repo <$> prev) (repo next)
            then persist "github_repo" (repo next) storage else storage in
  let s2 := if effectRuns (githubToken <$> prev) (githubToken next)
            then persist "github_token" (githubToken next) s1 else s1 in
  if effectRuns (devinApiKey <$> prev) (devinApiKey next)
  then persist "devin_api_key" (devinApiKey next) s2 else s2.

(** First render of the component in a browser whose storage is [storage]. *)
Definition mount (storage : gmap string string) : Browser :=
  let st := initialApp (storage !! "github_repo") (storage !! "github_token")
                       (storage !! "devin_api_key") in
  {| app := st;
     localStorage := persistenceEffects None st storage;
     inFlight := [];
     network := [];
     console := [] |}.

(** A state change: the component renders with [next] and its effects run. *)
Definition commit (next : App) (b : Browser) : Browser :=
  {| app := next;
     localStorage := persistenceEffects (Some (app b)) next (localStorage b);
     inFlight := inFlight b;
     network := network b;
     console := console b |}.

Definition send (p : Pending) (req : option Request) (b : Browser) : Browser :=
  match req with
  | None => b
  | Some r =>
      {| app := app b;
         localStorage := localStorage b;
         inFlight := inFlight b ++ [p];
         network := network b ++ [r];
         console := console b |}
  end.

Definition settle (i : nat) (b : Browser) : Browser :=
  {| app := app b;
     localStorage := localStorage b;
     inFlight := delete i (inFlight b);
     network := network b;
     console := console b |}.

Definition consoleError (err : option Thrown) (b : Browser) : Browser :=
  match err with
  | None => b
  | Some e =>
      {| app := app b;
         localStorage := localStorage b;
         inFlight := inFlight b;
         network := network b;
         console := console b ++ [e] |}
  end.

(** The dashboard renders one card, with its two buttons, per loaded issue. *)
Definition issueShown (issueNumber : Z) (st : App) : bool :=
  existsb (λ issue, Z.eqb (Issue.number issue) issueNumber) (issues st).

Inductive Event :=
| ChangeRepo (value : string)
| ChangeGithubToken (value : string)
| ChangeDevinApiKey (value : string)
| ClickConnect
| ClickChangeConfiguration
| ClickScope (issueNumber : Z)
| ClickComplete (issueNumber : Z)
| TimerFires
| IssuesArrive (i : nat) (r : FetchResult (list Issue.t))
| SessionArrives (i : nat) (r : FetchResult Session.t).

(** One event of the page: [None] when it cannot happen in [b] (the control
    is not rendered or is disabled, no timer is installed, or no such
    request is in flight). *)
Definition fire (e : Event) (b : Browser) : option Browser :=
  let st := app b in
  match e with
  | ChangeRepo v =>
      if configured st then None else Some (commit (setRepo v st) b)
  | ChangeGithubToken v =>
      if configured st then None else Some (commit (setGithubToken v st) b)
  | ChangeDevinApiKey v =>
      if configured st then None else Some (commit (setDevinApiKey v st) b)
  | ClickConnect =>
      if configured st || connectDisabled st then None
      else let '(st', req) := loadIssues_start st in
           Some (send PendingLoad req (commit st' b))
  | ClickChangeConfiguration =>
      if configured st then Some (commit (setConfigured false st) b) else None
  | ClickScope k =>
      if configured st && issueShown k st && negb (scopeDisabled k st) then
        let '(st', req) := scopeIssue_start k st in
        Some (send (PendingScope k) req (commit st' b))
      else None
  | ClickComplete k =>
      if configured st && issueShown k st && negb (completeDisabled k st) then
        let '(st', req) := completeIssue_start k st in
        Some (send (PendingComplete k) req (commit st' b))
      else None
  | TimerFires =>
      match pollTick st with
      | None => None
      | Some calls =>
          Some (foldl (λ acc '(k, req), send (PendingRefresh k) req acc) b calls)
      end
  | IssuesArrive i r =>
      match inFlight b !! i with
      | Some PendingLoad => Some (settle i (commit (loadIssues_finish r st) b))
      | _ => None
      end
  | SessionArrives i r =>
      match inFlight b !! i with
      | Some (PendingScope k) =>
          Some (settle i (commit (scopeIssue_finish k r st) b))
      | Some (PendingComplete k) =>
          Some (settle i (commit (completeIssue_finish k r st) b))
      | Some (PendingRefresh k) =>
          let '(st', err) := checkSessionStatus_finish k r st in
          Some (consoleError err (settle i (commit st' b)))
      | _ => None
      end
  end.

Fixpoint run (events : list Event) (b : Browser) : option Browser :=
  match events with
  | [] => Some b
  | e :: rest =>
      match fire e b with
      | Some b' => run rest b'
      | None => None
      end
  end.

(** The states the page can be in. *)
Definition reachable (b : Browser) : Prop :=
  ∃ storage events, run events (mount storage) = Some b.



(** A user action (load, scope or complete) is waiting for its response. *)
Definition userRequest (p : Pending) : bool :=
  match p with
  | PendingRefresh _ => false
  | _ => true
  end.

(** How many user actions are waiting for their response. *)
Definition countUser (l : list Pending) : nat :=
  length (List.filter userRequest l).

(** [loading] is up exactly while one user action waits for its response. *)
Definition loadingTracksRequest (b : Browser) : Prop :=
  countUser (inFlight b) = if loading (app b) then 1%nat else 0%nat.

(** Every non-empty credential of the component is the stored one. *)
Definition credentialsStored (b : Browser) : Prop :=
  (repo (app b) ≠ "" → localStorage b !! "github_repo" = Some (repo (app b)))
  ∧ (githubToken (app b) ≠ "" →
     localStorage b !! "github_token" = Some (githubToken (app b)))
  ∧ (devinApiKey (app b) ≠ "" →
     localStorage b !! "devin_api_key" = Some (devinApiKey (app b))).

(** Two states hold the same three credentials. *)
Definition sameCredentials (st st' : App) : Prop :=
  repo st' = repo st ∧ githubToken st' = githubToken st
  ∧ devinApiKey st' = devinApiKey st.

(** ** A session of the page

    The scenario of the README: connect to [octo/demo], scope issue 1, and
    let the poller pick up the finished analysis. *)

Definition demoIssue : Issue.t :=
  {| Issue.number := 1;
     Issue.title := "Bug";
     Issue.body := "It crashes";
     Issue.state := "open";
     Issue.html_url := "https://github.com/octo/demo/issues/1";
     Issue.created_at := "2025-01-01T00:00:00Z";
     Issue.updated_at := "2025-01-02T00:00:00Z";
     Issue.labels := [ {| Issue.name := "bug"; Issue.color := "d73a4a" |} ] |}.

Definition scopingSession : Session.t :=
  {| Session.session_id := "s1";
     Session.status := "scoping";
     Session.message := Some "Scoping session started";
     Session.session_url := Some "https://app.devin.ai/sessions/s1";
     Session.repo := Some "octo/demo";
     Session.issue_number := Some 1;
     Session.confidence_score := None;
     Session.action_plan := None |}.

Definition finishedSession : Session.t :=
  {| Session.session_id := "s1";
     Session.status := "finished";
     Session.message := None;
     Session.session_url := Some "https://app.devin.ai/sessions/s1";
     Session.repo := None;
     Session.issue_number := None;
     Session.confidence_score := Some 82;
     Session.action_plan := Some "1. Reproduce" |}.

Definition blockedSession : Session.t :=
  {| Session.session_id := "s1";
     Session.status := "blocked";
     Session.message := Some "Waiting for input";
     Session.session_url := None;
     Session.repo := None;
     Session.issue_number := None;
     Session.confidence_score := Some 82;
     Session.action_plan := Some "1. Reproduce" |}.

Definition ok {A} (data : A) : FetchResult A := Responded true (inr data).

Definition connectEvents : list Event :=
  [ ChangeRepo "octo/demo";
    ChangeGithubToken "ghp_token";
    ChangeDevinApiKey "apk_key";
    ClickConnect;
    IssuesArrive 0 (ok [demoIssue]) ].

Definition scopeEvents : list Event :=
  connectEvents ++ [ ClickScope 1; SessionArrives 0 (ok scopingSession) ].

Definition pollEvents : list Event :=
  scopeEvents ++ [ TimerFires; SessionArrives 0 (ok finishedSession) ].

(** The dashboard with no session, with issue 1 being scoped, and with
    the finished analysis of issue 1. *)
Definition connectedApp : App :=
  {| repo := "octo/demo"; githubToken := "ghp_token"; devinApiKey := "apk_key";
     issues := [demoIssue]; loading := false; error := "";
     sessions := ∅; configured := true |}.

Definition scopingApp : App :=
  setSessions (λ _, {[ 1 := scopingSession ]}) connectedApp.

Definition finishedApp : App :=
  setSessions (λ _, {[ 1 := finishedSession ]}) connectedApp.

Definition browserOf (st : App) : Browser :=
  {| app := st;
     localStorage :=
       {[ "github_repo" := "octo/demo"; "github_token" := "ghp_token";
          "devin_api_key" := "apk_key" ]};
     inFlight := [];
     network := [];
     console := [] |}.

(** The page after [scopeEvents], started with an empty storage. *)
Definition scopedBrowser : Browser :=
  {| app := scopingApp;
     localStorage := localStorage (browserOf scopingApp);
     inFlight := [];
     network :=
       [ GetIssues "octo/demo" "ghp_token";
         PostJson "/api/scope"
           [("repo", JString "octo/demo"); ("issue_number", JNumber 1);
            ("github_token", JString "ghp_token");
            ("devin_api_key", JString "apk_key")] ];
     console := [] |}.

(** The user scoped issue 1, went back to the configuration form and
    emptied the Devin API key field. *)
Definition keyClearedApp : App :=
  setDevinApiKey "" (setConfigured false scopingApp).

(** ** Rendering of a session and bookkeeping of requests *)

(** The [variant] values the component passes to [Badge]. *)
Inductive BadgeVariant :=
| VariantDefault
| VariantSecondary
| VariantOutline
| VariantDestructive.

(** [session.status === "implementing" ? "default"
     : session.status === "scoping" ? "secondary" : "outline"] *)
Definition statusBadge (session : Session.t) : BadgeVariant :=
  if String.eqb (Session.status session) "implementing" then VariantDefault
  else if String.eqb (Session.status session) "scoping" then VariantSecondary
  else VariantOutline.

(** The requests an event sends when it happens in [b]. *)
Definition sentBy (e : Event) (b : Browser) : list Request :=
  match e with
  | ClickConnect => option_list (loadIssues_start (app b)).2
  | ClickScope k => option_list (scopeIssue_start k (app b)).2
  | ClickComplete k => option_list (completeIssue_start k (app b)).2
  | TimerFires => (tickRequests (app b)).*2
  | _ => []
  end.

(** The fields the sending handler tests before its fetch are not empty:
    the repository and the GitHub token of an issue-list request, the
    Devin API key of a scope, complete or status request.  The [repo] and
    [github_token] of a scope or complete body are tested by no handler
    and are not looked at here. *)
Definition checkedFieldsPresent (req : Request) : bool :=
  match req with
  | GetIssues r t => truthy r && truthy t
  | PostJson _ body =>
      match property "devin_api_key" body with
      | Some (JString key) => truthy key
      | _ => false
      end
  | GetSession _ key => truthy key
  end.

(** The issue a scope or complete request is about. *)
Definition targets (k : Z) (req : Request) : bool :=
  match req with
  | PostJson _ body =>
      match property "issue_number" body with
      | Some (JNumber n) => Z.eqb n k
      | _ => false
      end
  | _ => false
  end.

(** The issue a pending request will store its response under, if any. *)
Definition pendingIssue (p : Pending) : option Z :=
  match p with
  | PendingLoad => None
  | PendingScope k | PendingComplete k | PendingRefresh k => Some k
  end.

(** The three continuations that store a session record. *)
Definition sessionStores : list (Z → FetchResult Session.t → App → App) :=
  [ scopeIssue_finish;
    completeIssue_finish;
    λ k r st, (checkSessionStatus_finish k r st).1 ].

(** An edit of one of the three credential fields. *)
Definition isEdit (e : Event) : bool :=
  match e with
  | ChangeRepo _ | ChangeGithubToken _ | ChangeDevinApiKey _ => true
  | _ => false
  end.

(** The keys the component uses in [localStorage]. *)
Definition storageKeys : list string :=
  [ "github_repo"; "github_token"; "devin_api_key" ].

(** Every record and every pending session request belongs to an issue
    some scope or complete request was sent for. *)
Definition sessionsRequested (b : Browser) : Prop :=
  (∀ k, is_Some (sessions (app b) !! k) →
        ∃ req, req ∈ network b ∧ targets k req = true)
  ∧ (∀ p k, p ∈ inFlight b → pendingIssue p = Some k →
        ∃ req, req ∈ network b ∧ targets k req = true).

(** The page after [connectEvents] and a click on the scope button of
    issue 1, before the response. *)
Definition scopeClickedBrowser : Browser :=
  {| app := setError "" (setLoading true connectedApp);
     localStorage := localStorage scopedBrowser;
     inFlight := [PendingScope 1];
     network := network scopedBrowser;
     console := [] |}.

(** While a user action waits for its response no banner is shown. *)
Definition quietWhileLoading (b : Browser) : Prop :=
  loading (app b) = true → error (app b) = "".

(** The dashboard with an empty Devin API key. *)
Definition noKeyApp : App := setDevinApiKey "" connectedApp.

(** * Properties *)

(** ** Basic facts about the embedding *)

Lemma truthy_true (s : string) : truthy s = true ↔ s ≠ "".
Proof. destruct s; simpl; split; congruence. Qed.

Lemma truthy_false (s : string) : truthy s = false ↔ s = "".
Proof. destruct s; simpl; split; congruence. Qed.

Lemma or_default_empty (o : option string) :
  or_default o "" = default "" o.
Proof. destruct o as [[|c s]|]; reflexivity. Qed.


Lemma awaitJson_failed {A} (notOk : string) (r : FetchResult A) :
  failed r → ∃ err, awaitJson notOk r = inl err.
Proof.
  destruct r as [e|[] [e|data]]; simpl; intros H; try contradiction; eauto.
Qed.



(** The calls made by one firing of the timer. *)
Lemma elem_of_intervalCallback (st : App) (k : Z) (sid : string) :
  (k, sid) ∈ intervalCallback st ↔
  ∃ s, sessions st !! k = Some s ∧ nonTerminal s = true
       ∧ sid = Session.session_id s.
Proof.
  unfold intervalCallback. rewrite list_elem_of_omap. split.
  - intros [[k' s] [Hin Hf]]. apply elem_of_map_to_list in Hin.
    destruct (nonTerminal s) eqn:Hnt; [|discriminate].
    simplify_eq. eauto.
  - intros (s & Hs & Hnt & ->). exists (k, s). split.
    + by apply elem_of_map_to_list.
    + by rewrite Hnt.
Qed.

Lemma elem_of_pollTick (st : App) calls (k : Z) (c : option Request) :
  pollTick st = Some calls →
  (k, c) ∈ calls ↔
  ∃ s, sessions st !! k = Some s ∧ nonTerminal s = true
       ∧ c = Some (GetSession (Session.session_id s) (devinApiKey st)).
Proof.
  unfold pollTick. destruct (truthy (devinApiKey st)) eqn:Hkey; [|discriminate].
  simpl. intros [= <-]. rewrite list_elem_of_fmap. split.
  - intros [[k' sid] [Heq Hin]]. apply elem_of_intervalCallback in Hin.
    destruct Hin as (s & Hs & Hnt & ->).
    unfold checkSessionStatus_start in Heq. rewrite Hkey in Heq. simpl in Heq.
    simplify_eq. eauto.
  - intros (s & Hs & Hnt & ->). exists (k, Session.session_id s). split.
    + unfold checkSessionStatus_start. by rewrite Hkey.
    + apply elem_of_intervalCallback. eauto.
Qed.




Lemma elem_of_tickRequests (st : App) (k : Z) (req : Request) :
  (k, req) ∈ tickRequests st ↔
  truthy (devinApiKey st) = true ∧
  ∃ s, sessions st !! k = Some s ∧ nonTerminal s = true
       ∧ req = GetSession (Session.session_id s) (devinApiKey st).
Proof.
  unfold tickRequests. destruct (pollTick st) as [calls|] eqn:Hpoll.
  - assert (Hkey : truthy (devinApiKey st) = true).
    { unfold pollTick in Hpoll. by destruct (truthy (devinApiKey st)). }
    rewrite list_elem_of_omap. split.
    + intros [[k' c] [Hin Hf]]. destruct c as [r|]; [|discriminate].
      simpl in Hf. simplify_eq.
      apply (elem_of_pollTick _ _ _ _ Hpoll) in Hin.
      destruct Hin as (s & Hs & Hnt & ?). simplify_eq. eauto 6.
    + intros (_ & s & Hs & Hnt & ->).
      exists (k, Some (GetSession (Session.session_id s) (devinApiKey st))).
      split; [|done]. apply (elem_of_pollTick _ _ _ _ Hpoll). eauto.
  - assert (Hkey : truthy (devinApiKey st) = false).
    { unfold pollTick in Hpoll. by destruct (truthy (devinApiKey st)). }
    rewrite Hkey. split; [by intros ?%elem_of_nil | by intros [? _]].
Qed.

Lemma persistenceEffects_same (st st' : App) storage :
  sameCredentials st st' →
  persistenceEffects (Some st) st' storage = storage.
Proof.
  intros (Hr & Ht & Hk). unfold persistenceEffects. simpl.
  rewrite Hr, Ht, Hk, !String.eqb_refl. reflexivity.
Qed.

(** ** What each continuation does to the sessions map and the issue list *)

Lemma loadIssues_finish_sessions r st :
  sessions (loadIssues_finish r st) = sessions st.
Proof.
  unfold loadIssues_finish.
  by destruct (awaitJson "Failed to fetch issues" r).
Qed.

Lemma scopeIssue_finish_sessions k r st :
  sessions (scopeIssue_finish k r st) =
  match awaitJson "Failed to scope issue" r with
  | inr data => <[k := data]> (sessions st)
  | inl _ => sessions st
  end.
Proof.
  unfold scopeIssue_finish.
  by destruct (awaitJson "Failed to scope issue" r).
Qed.

Lemma completeIssue_finish_sessions k r st :
  sessions (completeIssue_finish k r st) =
  match awaitJson "Failed to complete issue" r with
  | inr data => <[k := data]> (sessions st)
  | inl _ => sessions st
  end.
Proof.
  unfold completeIssue_finish.
  by destruct (awaitJson "Failed to complete issue" r).
Qed.

Lemma checkSessionStatus_finish_sessions k r st :
  sessions (checkSessionStatus_finish k r st).1 =
  match awaitJson "Failed to check session status" r with
  | inr data => <[k := data]> (sessions st)
  | inl _ => sessions st
  end.
Proof.
  unfold checkSessionStatus_finish.
  by destruct (awaitJson "Failed to check session status" r).
Qed.

Lemma start_sessions_load st : sessions (loadIssues_start st).1 = sessions st.
Proof. unfold loadIssues_start. by case_match. Qed.

Lemma start_sessions_scope k st : sessions (scopeIssue_start k st).1 = sessions st.
Proof. unfold scopeIssue_start. by case_match. Qed.

Lemma start_sessions_complete k st :
  sessions (completeIssue_start k st).1 = sessions st.
Proof. unfold completeIssue_start. by case_match. Qed.

(** ** Projections of the browser operations *)

Lemma app_send p req b : app (send p req b) = app b.
Proof. by destruct req. Qed.

Lemma app_consoleError err b : app (consoleError err b) = app b.
Proof. by destruct err. Qed.

Lemma app_foldl_send calls b :
  app (foldl (λ acc '(k, req), send (PendingRefresh k) req acc) b calls) = app b.
Proof.
  revert b. induction calls as [|[k req] calls IH]; intros b; simpl; [done|].
  by rewrite IH, app_send.
Qed.

Lemma localStorage_send p req b : localStorage (send p req b) = localStorage b.
Proof. by destruct req. Qed.

Lemma localStorage_consoleError err b :
  localStorage (consoleError err b) = localStorage b.
Proof. by destruct err. Qed.

Lemma localStorage_foldl_send calls b :
  localStorage (foldl (λ acc '(k, req), send (PendingRefresh k) req acc) b calls)
  = localStorage b.
Proof.
  revert b. induction calls as [|[k req] calls IH]; intros b; simpl; [done|].
  by rewrite IH, localStorage_send.
Qed.

(** The component state after an event, event by event. *)
Lemma fire_app e b b' :
  fire e b = Some b' →
  app b' =
  match e with
  | ChangeRepo v => setRepo v (app b)
  | ChangeGithubToken v => setGithubToken v (app b)
  | ChangeDevinApiKey v => setDevinApiKey v (app b)
  | ClickConnect => (loadIssues_start (app b)).1
  | ClickChangeConfiguration => setConfigured false (app b)
  | ClickScope k => (scopeIssue_start k (app b)).1
  | ClickComplete k => (completeIssue_start k (app b)).1
  | TimerFires => app b
  | IssuesArrive i r => loadIssues_finish r (app b)
  | SessionArrives i r =>
      match inFlight b !! i with
      | Some (PendingScope k) => scopeIssue_finish k r (app b)
      | Some (PendingComplete k) => completeIssue_finish k r (app b)
      | Some (PendingRefresh k) => (checkSessionStatus_finish k r (app b)).1
      | _ => app b
      end
  end.
Proof.
  destruct e; simpl; intros H.
  - by destruct (configured (app b)); simplify_eq.
  - by destruct (configured (app b)); simplify_eq.
  - by destruct (configured (app b)); simplify_eq.
  - destruct (configured (app b) || connectDisabled (app b)); [done|].
    destruct (loadIssues_start (app b)) as [st' req]. simplify_eq.
    by rewrite app_send.
  - by destruct (configured (app b)); simplify_eq.
  - destruct (configured (app b) && issueShown issueNumber (app b)
              && negb (scopeDisabled issueNumber (app b))); [|done].
    destruct (scopeIssue_start issueNumber (app b)) as [st' req]. simplify_eq.
    by rewrite app_send.
  - destruct (configured (app b) && issueShown issueNumber (app b)
              && negb (completeDisabled issueNumber (app b))); [|done].
    destruct (completeIssue_start issueNumber (app b)) as [st' req]. simplify_eq.
    by rewrite app_send.
  - destruct (pollTick (app b)) as [calls|]; [|done]. simplify_eq.
    by rewrite app_foldl_send.
  - destruct (inFlight b !! i) as [[]|]; by simplify_eq.
  - destruct (inFlight b !! i) as [[| k | k | k]|]; try done; simplify_eq; try done.
    destruct (checkSessionStatus_finish k r (app b)) as [st' err]. simplify_eq.
    by rewrite app_consoleError.
Qed.



(** ** The session id sent by the complete action *)

Lemma completeIssue_start_request (st : App) (k : Z) :
  (completeIssue_start k st).2 =
  if truthy (devinApiKey st) then
    Some (PostJson "/api/complete"
            [("repo", JString (repo st));
             ("issue_number", JNumber k);
             ("github_token", JString (githubToken st));
             ("devin_api_key", JString (devinApiKey st));
             ("session_id",
              JString (default "" (Session.session_id <$> sessions st !! k)))])
  else None.
Proof.
  unfold completeIssue_start. destruct (truthy (devinApiKey st)); simpl; [|done].
  by rewrite or_default_empty.
Qed.

(** C1, as the claim states it, fails: completing issue 1 of the freshly
    connected dashboard, which tracks no session for it, sends a body that
    does have a [session_id] property; its value is the empty string. *)
Lemma complete_untracked_issue_sends_session_id_field :
  sessions connectedApp !! 1 = None ∧
  ∃ body,
    (completeIssue_start 1 connectedApp).2 = Some (PostJson "/api/complete" body)
    ∧ property "session_id" body = Some (JString "").
Proof.
  split; [reflexivity|]. eexists. split; reflexivity.
Qed.

(** C1 (amended): with a Devin API key entered, the complete action posts
    to [/api/complete] a body whose [session_id] property is always
    present: it is the empty string when no session is tracked for the
    issue, and exactly the tracked session's id otherwise. *)
Theorem complete_request_session_id (st : App) (k : Z) :
  devinApiKey st ≠ "" →
  ∃ body,
    (completeIssue_start k st).2 = Some (PostJson "/api/complete" body)
    ∧ property "session_id" body =
      Some (JString match sessions st !! k with
                    | Some session => Session.session_id session
                    | None => ""
                    end).
Proof.
  intros Hkey%truthy_true. rewrite completeIssue_start_request, Hkey.
  eexists. split; [reflexivity|]. simpl. by destruct (sessions st !! k).
Qed.

Lemma complete_request_session_id_witness :
  devinApiKey scopingApp ≠ "" ∧
  ∃ body,
    (completeIssue_start 1 scopingApp).2 = Some (PostJson "/api/complete" body)
    ∧ property "session_id" body = Some (JString "s1").
Proof.
  split; [done|]. apply (complete_request_session_id scopingApp 1). done.
Defined.

(** ** The poller *)

(** What a firing of the timer adds to the requests sent. *)
Lemma foldl_send_network calls b :
  network (foldl (λ acc '(k, req), send (PendingRefresh k) req acc) b calls)
  = (network b ++ (omap (λ '(k, req), (k,.) <$> req) calls).*2)%list.
Proof.
  revert b. induction calls as [|[k [req|]] calls IH]; intros b; simpl.
  - by rewrite app_nil_r.
  - rewrite IH. simpl. by rewrite <- app_assoc.
  - by rewrite IH.
Qed.

Lemma fire_TimerFires_network b b' :
  fire TimerFires b = Some b' →
  network b' = (network b ++ (tickRequests (app b)).*2)%list.
Proof.
  simpl. unfold tickRequests.
  destruct (pollTick (app b)) as [calls|]; [|done].
  intros [= <-]. apply foldl_send_network.
Qed.

Lemma fire_TimerFires_enabled b :
  is_Some (fire TimerFires b) ↔ devinApiKey (app b) ≠ "".
Proof.
  simpl. unfold pollTick. rewrite <- truthy_true.
  destruct (truthy (devinApiKey (app b))); simpl; split;
    try done; intros H; by inversion H.
Qed.



(** The scenario: issue 1 is scoped, the timer fires, and the refresh
    brings the finished analysis. *)
Lemma pollEvents_reach_finishedApp :
  app <$> run pollEvents (mount ∅) = Some finishedApp.
Proof. vm_compute. reflexivity. Qed.


(** In [frontend/src/App.tsx] an empty Devin API key stops the poller:
    the effect installs no timer, and [checkSessionStatus] itself returns
    before its fetch. *)
Lemma no_credential_no_poll (st : App) :
  devinApiKey st = "" →
  pollTick st = None ∧ tickRequests st = []
  ∧ ∀ k sid, checkSessionStatus_start k sid st = None.
Proof.
  intros Hkey%truthy_false.
  unfold tickRequests, pollTick, checkSessionStatus_start. by rewrite Hkey.
Qed.

(** ... and entering a key again makes the next firing refresh every
    session that is still "scoping" or "implementing". *)
Lemma poll_resumes_with_credential (b b' : Browser) (v : string) k s :
  fire (ChangeDevinApiKey v) b = Some b' → v ≠ "" →
  sessions (app b) !! k = Some s → nonTerminal s = true →
  (k, GetSession (Session.session_id s) v) ∈ tickRequests (app b').
Proof.
  intros Hfire Hv Hs Hnt. rewrite (fire_app _ _ _ Hfire).
  apply elem_of_tickRequests. simpl. split; [by apply truthy_true|]. eauto.
Qed.

(** The state [keyClearedApp] is one the page gets into: scope issue 1,
    press "Change Configuration", empty the key field.  None of these
    handlers differs between the two copies of [App.tsx]. *)
Lemma keyClearedApp_reached :
  app <$> run (scopeEvents ++ [ClickChangeConfiguration; ChangeDevinApiKey ""])
              (mount ∅)
  = Some keyClearedApp.
Proof. vm_compute. reflexivity. Qed.

(** C3 holds in [frontend/src/App.tsx] and fails in the copy under
    [github-issues-integration/]: with the Devin API key emptied while
    issue 1 is being scoped, a firing of the copy's timer sends the status
    request for session "s1" with an empty credential, where the current
    component sends nothing. *)
Theorem bundled_poll_ignores_missing_credential :
  devinApiKey keyClearedApp = ""
  ∧ Bundled.tickRequests keyClearedApp = [(1, GetSession "s1" "")]
  ∧ tickRequests keyClearedApp = [].
Proof. vm_compute. repeat split; reflexivity. Qed.

(** ** Failures *)

(** C4: a status refresh that fails, by a response that is not OK or by a
    thrown error, leaves the component state as it was, and with it every
    record of the sessions map; the error goes to the console. *)
Theorem failed_refresh_keeps_sessions
    (st : App) (k : Z) (r : FetchResult Session.t) :
  failed r →
  (checkSessionStatus_finish k r st).1 = st
  ∧ sessions (checkSessionStatus_finish k r st).1 = sessions st
  ∧ (∀ j, sessions (checkSessionStatus_finish k r st).1 !! j = sessions st !! j)
  ∧ is_Some (checkSessionStatus_finish k r st).2.
Proof.
  intros [err Herr]%(awaitJson_failed "Failed to check session status").
  unfold checkSessionStatus_finish. rewrite Herr. simpl. eauto.
Qed.

Lemma failed_refresh_keeps_sessions_witness :
  failed (Responded false (inr finishedSession))
  ∧ sessions (checkSessionStatus_finish 1 (Responded false (inr finishedSession))
                scopingApp).1 !! 1
    = Some scopingSession.
Proof.
  split; [exact I|].
  rewrite (proj1 (proj2 (failed_refresh_keeps_sessions scopingApp 1
                           (Responded false (inr finishedSession)) I))).
  reflexivity.
Defined.

(** C5, as the claim states it, fails: a status refresh whose fetch is
    rejected is caught, but the banner text stays empty; the error is only
    written to the console. *)
Lemma failed_refresh_sets_no_banner :
  error scopingApp = ""
  ∧ error (checkSessionStatus_finish 1 (Rejected (ThrownError "Failed to fetch"))
             scopingApp).1 = ""
  ∧ (checkSessionStatus_finish 1 (Rejected (ThrownError "Failed to fetch"))
       scopingApp).2 = Some (ThrownError "Failed to fetch").
Proof. repeat split; reflexivity. Qed.

(** C5 (amended): a failed fetch of [loadIssues], [scopeIssue] or
    [completeIssue] is caught and sets the banner text to the message of
    the caught error (for a response that is not OK, the action's own
    "Failed to ..." text) or, when the thrown value is not an [Error], to
    the action's fallback text; a failed status refresh is caught and only
    logged to the console, the banner staying as it was; and none of these
    failure paths changes the issue list or the sessions map. *)
Theorem fetch_failures_keep_issues_and_sessions
    (st : App) (k : Z)
    (ri : FetchResult (list Issue.t)) (rs : FetchResult Session.t) :
  failed ri → failed rs →
  (∃ err, awaitJson "Failed to fetch issues" ri = inl err
     ∧ error (loadIssues_finish ri st) = errorMessage err "Failed to load issues"
     ∧ issues (loadIssues_finish ri st) = issues st
     ∧ sessions (loadIssues_finish ri st) = sessions st)
  ∧ (∃ err, awaitJson "Failed to scope issue" rs = inl err
     ∧ error (scopeIssue_finish k rs st) = errorMessage err "Failed to scope issue"
     ∧ issues (scopeIssue_finish k rs st) = issues st
     ∧ sessions (scopeIssue_finish k rs st) = sessions st)
  ∧ (∃ err, awaitJson "Failed to complete issue" rs = inl err
     ∧ error (completeIssue_finish k rs st)
       = errorMessage err "Failed to complete issue"
     ∧ issues (completeIssue_finish k rs st) = issues st
     ∧ sessions (completeIssue_finish k rs st) = sessions st)
  ∧ (∃ err, awaitJson "Failed to check session status" rs = inl err
     ∧ checkSessionStatus_finish k rs st = (st, Some err)).
Proof.
  intros Hi Hs.
  destruct (awaitJson_failed "Failed to fetch issues" ri Hi) as [e1 H1].
  destruct (awaitJson_failed "Failed to scope issue" rs Hs) as [e2 H2].
  destruct (awaitJson_failed "Failed to complete issue" rs Hs) as [e3 H3].
  destruct (awaitJson_failed "Failed to check session status" rs Hs) as [e4 H4].
  unfold loadIssues_finish, scopeIssue_finish, completeIssue_finish,
    checkSessionStatus_finish.
  rewrite H1, H2, H3, H4. simpl. repeat esplit.
Qed.

Lemma fetch_failures_keep_issues_and_sessions_witness :
  failed (Responded (A := list Issue.t) false (inl ThrownValue))
  ∧ failed (Rejected (A := Session.t) ThrownValue)
  ∧ error (loadIssues_finish (Responded false (inl ThrownValue)) scopingApp)
    = "Failed to fetch issues"
  ∧ error (scopeIssue_finish 1 (Rejected ThrownValue) scopingApp)
    = "Failed to scope issue"
  ∧ sessions (completeIssue_finish 1 (Rejected ThrownValue) scopingApp)
    = sessions scopingApp.
Proof.
  destruct (fetch_failures_keep_issues_and_sessions scopingApp 1
              (Responded false (inl ThrownValue)) (Rejected ThrownValue) I I)
    as ((e1 & H1 & -> & _) & (e2 & H2 & -> & _) & (e3 & _ & _ & _ & ->) & _).
  injection H1 as <-. injection H2 as <-.
  repeat split.
Defined.

(** ** The sessions map *)

(** C6: the sessions map holds at most one record per issue number, and a
    successful response of the scope action, of the complete action or of
    a status refresh stores its payload under the targeted issue number
    and leaves the entry of every other issue number as it was. *)
Theorem session_response_replaces_one_entry
    (st st' : App) (k : Z) (data : Session.t) :
  st' ∈ [ scopeIssue_finish k (ok data) st;
          completeIssue_finish k (ok data) st;
          (checkSessionStatus_finish k (ok data) st).1 ] →
  sessions st' = <[k := data]> (sessions st)
  ∧ sessions st' !! k = Some data
  ∧ (∀ j, j ≠ k → sessions st' !! j = sessions st !! j)
  ∧ NoDup (map_to_list (sessions st')).*1.
Proof.
  intros Hin.
  assert (Heq : sessions st' = <[k := data]> (sessions st)).
  { rewrite !elem_of_cons, elem_of_nil in Hin.
    destruct Hin as [->|[->|[->|[]]]]; reflexivity. }
  rewrite Heq. repeat split.
  - apply lookup_insert_eq.
  - intros j Hj. by apply lookup_insert_ne.
  - apply NoDup_fst_map_to_list.
Qed.

Lemma session_response_replaces_one_entry_witness :
  completeIssue_finish 1 (ok blockedSession) scopingApp
  ∈ [ scopeIssue_finish 1 (ok blockedSession) scopingApp;
      completeIssue_finish 1 (ok blockedSession) scopingApp;
      (checkSessionStatus_finish 1 (ok blockedSession) scopingApp).1 ]
  ∧ sessions (completeIssue_finish 1 (ok blockedSession) scopingApp) !! 1
    = Some blockedSession.
Proof.
  assert (H : completeIssue_finish 1 (ok blockedSession) scopingApp
    ∈ [ scopeIssue_finish 1 (ok blockedSession) scopingApp;
        completeIssue_finish 1 (ok blockedSession) scopingApp;
        (checkSessionStatus_finish 1 (ok blockedSession) scopingApp).1 ])
    by (right; left).
  split; [exact H|].
  exact (proj1 (proj2 (session_response_replaces_one_entry _ _ _ _ H))).
Defined.

(** C7: a successful status refresh stores the response payload as the
    issue's record.  When the payload equals the record stored before, the
    map is unchanged, so [confidence_score], [action_plan] and [message]
    round-trip; whatever the old record held, each of these fields is in
    the stored record exactly what the payload has, so a field the payload
    omits is absent afterwards. *)
Theorem refresh_replaces_whole_record
    (st : App) (k : Z) (old data : Session.t) :
  sessions st !! k = Some old →
  sessions (checkSessionStatus_finish k (ok data) st).1 !! k = Some data
  ∧ (data = old → sessions (checkSessionStatus_finish k (ok data) st).1 = sessions st)
  ∧ (∀ stored,
       sessions (checkSessionStatus_finish k (ok data) st).1 !! k = Some stored →
       Session.confidence_score stored = Session.confidence_score data
       ∧ Session.action_plan stored = Session.action_plan data
       ∧ Session.message stored = Session.message data
       ∧ (Session.confidence_score data = None →
          Session.confidence_score stored = None)
       ∧ (Session.action_plan data = None → Session.action_plan stored = None)
       ∧ (Session.message data = None → Session.message stored = None)).
Proof.
  intros Hold. simpl. rewrite lookup_insert_eq. repeat split.
  - intros ->. by apply insert_id.
  - by simplify_eq.
  - by simplify_eq.
  - by simplify_eq.
  - by simplify_eq.
  - by simplify_eq.
  - by simplify_eq.
Qed.

Lemma refresh_replaces_whole_record_witness :
  sessions scopingApp !! 1 = Some scopingSession
  ∧ sessions (checkSessionStatus_finish 1 (ok finishedSession) scopingApp).1 !! 1
    = Some finishedSession
  ∧ (∀ stored,
       sessions (checkSessionStatus_finish 1 (ok finishedSession) scopingApp).1 !! 1
       = Some stored →
       Session.message stored = None).
Proof.
  split; [reflexivity|].
  destruct (refresh_replaces_whole_record scopingApp 1 scopingSession
              finishedSession eq_refl) as (H1 & _ & H3).
  split; [exact H1|].
  intros stored Hstored.
  destruct (H3 stored Hstored) as (_ & _ & _ & _ & _ & Hm).
  apply Hm. reflexivity.
Defined.

(** ** The [loading] flag and the requests in flight *)

Lemma countUser_app l p :
  countUser (l ++ [p]) = (countUser l + if userRequest p then 1 else 0)%nat.
Proof.
  unfold countUser. rewrite List.filter_app, length_app. simpl.
  by destruct (userRequest p).
Qed.

Lemma countUser_delete l i p :
  l !! i = Some p →
  countUser l = (countUser (delete i l) + if userRequest p then 1 else 0)%nat.
Proof.
  unfold countUser. revert i. induction l as [|q l IH]; intros [|i] Hi;
    simplify_eq/=.
  - destruct (userRequest p); simpl; lia.
  - specialize (IH _ Hi). destruct (userRequest q); simpl; lia.
Qed.

Lemma countUser_zero l :
  countUser l = 0%nat ↔ ∀ p, p ∈ l → userRequest p = false.
Proof.
  unfold countUser. induction l as [|q l IH]; simpl.
  - split; [by intros _ p ?%elem_of_nil | done].
  - destruct (userRequest q) eqn:Hq; simpl.
    + split; [done|]. intros H. specialize (H q (list_elem_of_here _ _)).
      congruence.
    + rewrite IH. split.
      * intros H p [->|Hin]%elem_of_cons; auto.
      * intros H p Hin. apply H. by right.
Qed.

Lemma inFlight_foldl_send calls b :
  countUser (inFlight (foldl (λ acc '(k, req), send (PendingRefresh k) req acc)
                         b calls))
  = countUser (inFlight b).
Proof.
  revert b. induction calls as [|[k [req|]] calls IH]; intros b; simpl; [done|..].
  - rewrite IH. simpl. rewrite countUser_app. simpl. lia.
  - by rewrite IH.
Qed.

Lemma loading_loadIssues_finish r st : loading (loadIssues_finish r st) = false.
Proof. done. Qed.

Lemma loading_scopeIssue_finish k r st : loading (scopeIssue_finish k r st) = false.
Proof. done. Qed.

Lemma loading_completeIssue_finish k r st :
  loading (completeIssue_finish k r st) = false.
Proof. done. Qed.

Lemma loading_checkSessionStatus_finish k r st :
  loading (checkSessionStatus_finish k r st).1 = loading st.
Proof.
  unfold checkSessionStatus_finish.
  by destruct (awaitJson "Failed to check session status" r).
Qed.

Lemma fire_loadingTracksRequest e b b' :
  fire e b = Some b' → loadingTracksRequest b → loadingTracksRequest b'.
Proof.
  unfold loadingTracksRequest. destruct e; simpl; intros Hfire Hinv.
  - by destruct (configured (app b)); simplify_eq.
  - by destruct (configured (app b)); simplify_eq.
  - by destruct (configured (app b)); simplify_eq.
  - destruct (configured (app b)); [done|]. simpl in Hfire.
    unfold connectDisabled, loadIssues_start in Hfire.
    destruct (loading (app b)); [done|].
    destruct (negb (truthy (repo (app b)))); [done|].
    destruct (negb (truthy (githubToken (app b)))); [done|].
    destruct (negb (truthy (devinApiKey (app b)))); [done|].
    simpl in Hfire. simplify_eq. simpl. rewrite countUser_app, Hinv. done.
  - by destruct (configured (app b)); simplify_eq.
  - destruct (configured (app b)); [|done].
    destruct (issueShown issueNumber (app b)); [|done].
    unfold scopeDisabled, scopeIssue_start in Hfire.
    destruct (loading (app b)) eqn:Hl; [done|].
    destruct (bool_decide _); [done|]. simpl in Hfire.
    destruct (negb (truthy (devinApiKey (app b)))); simplify_eq; simpl.
    + by rewrite Hl.
    + by rewrite countUser_app, Hinv.
  - destruct (configured (app b)); [|done].
    destruct (issueShown issueNumber (app b)); [|done].
    unfold completeDisabled, completeIssue_start in Hfire.
    destruct (loading (app b)) eqn:Hl; [done|].
    destruct (match sessions (app b) !! issueNumber with
              | Some _ => _ | None => _ end); [done|]. simpl in Hfire.
    destruct (negb (truthy (devinApiKey (app b)))); simplify_eq; simpl.
    + by rewrite Hl.
    + by rewrite countUser_app, Hinv.
  - destruct (pollTick (app b)) as [calls|]; [|done]. simplify_eq.
    by rewrite inFlight_foldl_send, app_foldl_send.
  - destruct (inFlight b !! i) as [[]|] eqn:Hp; try done. simplify_eq. simpl.
    rewrite (countUser_delete _ _ _ Hp) in Hinv. simpl in Hinv.
    destruct (loading (app b)); lia.
  - destruct (inFlight b !! i) as [[| k | k | k]|] eqn:Hp; try done.
    + simplify_eq. simpl.
      rewrite (countUser_delete _ _ _ Hp) in Hinv. simpl in Hinv.
      destruct (loading (app b)); lia.
    + simplify_eq. simpl.
      rewrite (countUser_delete _ _ _ Hp) in Hinv. simpl in Hinv.
      destruct (loading (app b)); lia.
    + pose proof (loading_checkSessionStatus_finish k r (app b)) as Hl.
      destruct (checkSessionStatus_finish k r (app b)) as [st' err].
      simplify_eq. simpl in Hl.
      rewrite (countUser_delete _ _ _ Hp) in Hinv. simpl in Hinv.
      destruct err; simpl; rewrite Hl, <- Hinv; lia.
Qed.

Lemma run_invariant (P : Browser → Prop) events b b' :
  (∀ e b1 b2, fire e b1 = Some b2 → P b1 → P b2) →
  run events b = Some b' → P b → P b'.
Proof.
  intros Hstep. revert b. induction events as [|e events IH]; intros b; simpl.
  - by intros [= ->].
  - destruct (fire e b) as [b1|] eqn:Hfire; [|done]. eauto.
Qed.

Lemma reachable_loadingTracksRequest b : reachable b → loadingTracksRequest b.
Proof.
  intros (storage & events & Hrun).
  apply (run_invariant loadingTracksRequest _ _ _ fire_loadingTracksRequest Hrun).
  reflexivity.
Qed.

Lemma scopedBrowser_reachable : reachable scopedBrowser.
Proof. exists ∅, scopeEvents. vm_compute. reflexivity. Qed.

(** ** The two buttons of an issue *)

Lemma scopeDisabled_false (k : Z) (st : App) :
  scopeDisabled k st = false ↔ sessions st !! k = None ∧ loading st = false.
Proof.
  unfold scopeDisabled. rewrite orb_false_iff, bool_decide_eq_false.
  rewrite <- eq_None_not_Some. tauto.
Qed.

(** C8: the scope button of an issue is disabled whenever the sessions map
    has a record for that issue, whatever the record holds; it is enabled
    exactly when the map has none and [loading] is down, and [loading] is
    down exactly when no load, scope or complete request is in flight; a
    click on the button is handled only when it is enabled. *)
Theorem scope_disabled_once_tracked (b : Browser) (k : Z) :
  reachable b →
  (∀ s, sessions (app b) !! k = Some s → scopeDisabled k (app b) = true)
  ∧ (scopeDisabled k (app b) = false ↔
     sessions (app b) !! k = None ∧ loading (app b) = false)
  ∧ (loading (app b) = false ↔ ∀ p, p ∈ inFlight b → userRequest p = false)
  ∧ (∀ b', fire (ClickScope k) b = Some b' → scopeDisabled k (app b) = false).
Proof.
  intros Hinv%reachable_loadingTracksRequest.
  unfold loadingTracksRequest in Hinv.
  split; [|split; [|split]].
  - intros s Hs. unfold scopeDisabled. rewrite Hs.
    rewrite bool_decide_eq_true_2 by eauto. apply orb_true_r.
  - apply scopeDisabled_false.
  - rewrite <- countUser_zero, Hinv. by destruct (loading (app b)).
  - intros b'. simpl.
    destruct (scopeDisabled k (app b)); [|done].
    by rewrite andb_false_r.
Qed.

Lemma scope_disabled_once_tracked_witness :
  reachable scopedBrowser
  ∧ scopeDisabled 1 (app scopedBrowser) = true
  ∧ scopeDisabled 2 (app scopedBrowser) = false.
Proof.
  split; [exists ∅, scopeEvents; vm_compute; reflexivity|].
  destruct (scope_disabled_once_tracked scopedBrowser 1 scopedBrowser_reachable)
    as (H1 & _).
  split; [exact (H1 scopingSession eq_refl)|].
  destruct (scope_disabled_once_tracked scopedBrowser 2 scopedBrowser_reachable)
    as (_ & H2 & _).
  apply H2. split; reflexivity.
Defined.

(** C9: the complete button of an issue is disabled exactly while
    [loading] is up or the tracked session's status is exactly
    "implementing".  For a tracked session with any other status and
    [loading] down the button is enabled, every request the action then
    sends goes to [/api/complete] with that session's id as [session_id],
    and it does send one whenever a Devin API key is entered. *)
Theorem complete_disabled_only_while_implementing (st : App) (k : Z) :
  (completeDisabled k st = true ↔
   loading st = true
   ∨ ∃ s, sessions st !! k = Some s ∧ Session.status s = "implementing")
  ∧ (∀ s, sessions st !! k = Some s →
       Session.status s ≠ "implementing" → loading st = false →
       completeDisabled k st = false
       ∧ (∀ req, (completeIssue_start k st).2 = Some req →
            ∃ body, req = PostJson "/api/complete" body
                    ∧ property "session_id" body
                      = Some (JString (Session.session_id s)))
       ∧ (devinApiKey st ≠ "" → is_Some (completeIssue_start k st).2)).
Proof.
  split.
  - unfold completeDisabled. rewrite orb_true_iff. split.
    + intros [?|H]; [by left|]. right.
      destruct (sessions st !! k) as [s|]; [|done].
      apply String.eqb_eq in H. eauto.
    + intros [?|(s & -> & Hs)]; [by left|]. right. by apply String.eqb_eq.
  - intros s Hs Hstatus Hl. repeat split.
    + unfold completeDisabled. rewrite Hl, Hs. simpl.
      by apply String.eqb_neq.
    + intros req. rewrite completeIssue_start_request.
      destruct (truthy (devinApiKey st)); [|done].
      intros [= <-]. eexists. split; [reflexivity|]. simpl. by rewrite Hs.
    + intros Hkey%truthy_true. rewrite completeIssue_start_request, Hkey. eauto.
Qed.

Lemma complete_disabled_only_while_implementing_witness :
  sessions finishedApp !! 1 = Some finishedSession
  ∧ completeDisabled 1 finishedApp = false
  ∧ ∀ req, (completeIssue_start 1 finishedApp).2 = Some req →
      ∃ body, req = PostJson "/api/complete" body
              ∧ property "session_id" body = Some (JString "s1").
Proof.
  split; [reflexivity|].
  destruct (proj2 (complete_disabled_only_while_implementing finishedApp 1)
              finishedSession eq_refl) as (H1 & H2 & _);
    [discriminate | reflexivity |].
  split; [exact H1 | exact H2].
Defined.

(** ** Credentials in [localStorage] *)

Lemma persist_stored key (o : option string) (storage : gmap string string) :
  storage !! key = o → persist key (or_default o "") storage = storage.
Proof.
  intros <-. unfold persist, or_default.
  destruct (storage !! key) as [s|] eqn:Hs; [|done].
  destruct (truthy s) eqn:Ht; [|done]. rewrite Ht. by apply insert_id.
Qed.

Lemma persist_lookup_ne key key' v (storage : gmap string string) :
  key ≠ key' → persist key v storage !! key' = storage !! key'.
Proof.
  intros Hne. unfold persist. destruct (truthy v); [|done].
  by rewrite lookup_insert_ne.
Qed.

Lemma persist_lookup key v (storage : gmap string string) :
  v ≠ "" → persist key v storage !! key = Some v.
Proof.
  intros Hv%truthy_true. unfold persist. rewrite Hv. apply lookup_insert_eq.
Qed.

Lemma persist_lookup_congr key v (s1 s2 : gmap string string) :
  s1 !! key = s2 !! key → persist key v s1 !! key = persist key v s2 !! key.
Proof.
  intros H. unfold persist. destruct (truthy v); [|done].
  by rewrite !lookup_insert_eq.
Qed.

Lemma mount_localStorage storage : localStorage (mount storage) = storage.
Proof.
  unfold mount, persistenceEffects. cbn -[persist or_default].
  rewrite (persist_stored "github_repo") by done.
  rewrite (persist_stored "github_token") by done.
  by rewrite (persist_stored "devin_api_key").
Qed.

(** What the three effects leave under each key. *)
Lemma persistenceEffects_lookup prev next (storage : gmap string string) :
  persistenceEffects prev next storage !! "github_repo"
  = (if effectRuns (repo <$> prev) (repo next)
     then persist "github_repo" (repo next) storage else storage) !! "github_repo"
  ∧ persistenceEffects prev next storage !! "github_token"
    = (if effectRuns (githubToken <$> prev) (githubToken next)
       then persist "github_token" (githubToken next) storage else storage)
      !! "github_token"
  ∧ persistenceEffects prev next storage !! "devin_api_key"
    = (if effectRuns (devinApiKey <$> prev) (devinApiKey next)
       then persist "devin_api_key" (devinApiKey next) storage else storage)
      !! "devin_api_key".
Proof.
  unfold persistenceEffects.
  destruct (effectRuns (repo <$> prev) (repo next)),
    (effectRuns (githubToken <$> prev) (githubToken next)),
    (effectRuns (devinApiKey <$> prev) (devinApiKey next));
    repeat split;
    repeat first
      [ reflexivity
      | rewrite (persist_lookup_ne "github_repo") by discriminate
      | rewrite (persist_lookup_ne "github_token") by discriminate
      | rewrite (persist_lookup_ne "devin_api_key") by discriminate
      | apply persist_lookup_congr ].
Qed.

Lemma fire_ChangeRepo b v b' :
  fire (ChangeRepo v) b = Some b' →
  app b' = setRepo v (app b)
  ∧ localStorage b' = if String.eqb (repo (app b)) v then localStorage b
                      else persist "github_repo" v (localStorage b).
Proof.
  simpl. destruct (configured (app b)); [done|]. intros [= <-].
  split; [done|]. unfold commit, persistenceEffects.
  cbn -[persist String.eqb]. rewrite !String.eqb_refl. simpl.
  by destruct (String.eqb (repo (app b)) v).
Qed.

Lemma fire_ChangeGithubToken b v b' :
  fire (ChangeGithubToken v) b = Some b' →
  app b' = setGithubToken v (app b)
  ∧ localStorage b' = if String.eqb (githubToken (app b)) v then localStorage b
                      else persist "github_token" v (localStorage b).
Proof.
  simpl. destruct (configured (app b)); [done|]. intros [= <-].
  split; [done|]. unfold commit, persistenceEffects.
  cbn -[persist String.eqb]. rewrite !String.eqb_refl. simpl.
  by destruct (String.eqb (githubToken (app b)) v).
Qed.

Lemma fire_ChangeDevinApiKey b v b' :
  fire (ChangeDevinApiKey v) b = Some b' →
  app b' = setDevinApiKey v (app b)
  ∧ localStorage b' = if String.eqb (devinApiKey (app b)) v then localStorage b
                      else persist "devin_api_key" v (localStorage b).
Proof.
  simpl. destruct (configured (app b)); [done|]. intros [= <-].
  split; [done|]. unfold commit, persistenceEffects.
  cbn -[persist String.eqb]. rewrite !String.eqb_refl. simpl.
  by destruct (String.eqb (devinApiKey (app b)) v).
Qed.

(** What a change of one field does to its key of the storage. *)
Lemma change_persists key old v (storage storage' : gmap string string) :
  storage' = (if String.eqb old v then storage else persist key v storage) →
  (v ≠ "" → v ≠ old → storage' !! key = Some v)
  ∧ (v = "" → storage' = storage).
Proof.
  intros ->. split.
  - intros Hv Hne. destruct (String.eqb_spec old v) as [->|_]; [done|].
    by apply persist_lookup.
  - intros ->. by destruct (String.eqb old "").
Qed.

(** Every event leaves in the storage what the effects make of the state
    before and after it. *)
Lemma fire_localStorage e b b' :
  fire e b = Some b' →
  localStorage b'
  = persistenceEffects (Some (app b)) (app b') (localStorage b).
Proof.
  destruct e; simpl; intros H.
  - by destruct (configured (app b)); simplify_eq.
  - by destruct (configured (app b)); simplify_eq.
  - by destruct (configured (app b)); simplify_eq.
  - destruct (configured (app b) || connectDisabled (app b)); [done|].
    destruct (loadIssues_start (app b)) as [st' req]. simplify_eq.
    by rewrite localStorage_send, app_send.
  - by destruct (configured (app b)); simplify_eq.
  - destruct (configured (app b) && issueShown issueNumber (app b)
              && negb (scopeDisabled issueNumber (app b))); [|done].
    destruct (scopeIssue_start issueNumber (app b)) as [st' req]. simplify_eq.
    by rewrite localStorage_send, app_send.
  - destruct (configured (app b) && issueShown issueNumber (app b)
              && negb (completeDisabled issueNumber (app b))); [|done].
    destruct (completeIssue_start issueNumber (app b)) as [st' req]. simplify_eq.
    by rewrite localStorage_send, app_send.
  - destruct (pollTick (app b)) as [calls|]; [|done]. simplify_eq.
    rewrite localStorage_foldl_send, app_foldl_send.
    by rewrite persistenceEffects_same.
  - destruct (inFlight b !! i) as [[]|]; by simplify_eq.
  - destruct (inFlight b !! i) as [[| k | k | k]|]; try done; simplify_eq; try done.
    destruct (checkSessionStatus_finish k r (app b)) as [st' err]. simplify_eq.
    by rewrite localStorage_consoleError, app_consoleError.
Qed.

Lemma credentialsStored_mount storage : credentialsStored (mount storage).
Proof.
  unfold credentialsStored. rewrite mount_localStorage. simpl.
  repeat split; intros H.
  - destruct (storage !! "github_repo") as [s|]; [|done].
    simpl in *. by destruct (truthy s).
  - destruct (storage !! "github_token") as [s|]; [|done].
    simpl in *. by destruct (truthy s).
  - destruct (storage !! "devin_api_key") as [s|]; [|done].
    simpl in *. by destruct (truthy s).
Qed.

Lemma stored_after_effect key old v (storage : gmap string string) :
  (old ≠ "" → storage !! key = Some old) → v ≠ "" →
  (if effectRuns (Some old) v then persist key v storage else storage) !! key
  = Some v.
Proof.
  intros Hold Hv. simpl. destruct (String.eqb_spec old v) as [->|Hne]; simpl.
  - by apply Hold.
  - by apply persist_lookup.
Qed.

Lemma fire_credentialsStored e b b' :
  fire e b = Some b' → credentialsStored b → credentialsStored b'.
Proof.
  intros Hfire (Hr & Ht & Hk). unfold credentialsStored.
  rewrite (fire_localStorage _ _ _ Hfire).
  destruct (persistenceEffects_lookup (Some (app b)) (app b') (localStorage b))
    as (-> & -> & ->).
  repeat split; intros H; by apply stored_after_effect.
Qed.

Lemma reachable_credentialsStored b : reachable b → credentialsStored b.
Proof.
  intros (storage & events & Hrun).
  apply (run_invariant credentialsStored _ _ _ fire_credentialsStored Hrun).
  apply credentialsStored_mount.
Qed.

(** C10: on startup the repository name, the GitHub token and the Devin
    API key are what [localStorage] holds under their keys (empty when it
    holds nothing), and the storage is left as found.  A change of a field
    to a non-empty string stores that string under the field's key;
    emptying a field leaves the storage, and so the last non-empty value,
    untouched.  Throughout, a credential that is not empty is the stored
    one. *)
Theorem credentials_persist_in_localStorage
    (storage : gmap string string) (b b' : Browser) (v : string) :
  (repo (app (mount storage)) = default "" (storage !! "github_repo")
   ∧ githubToken (app (mount storage)) = default "" (storage !! "github_token")
   ∧ devinApiKey (app (mount storage)) = default "" (storage !! "devin_api_key")
   ∧ localStorage (mount storage) = storage)
  ∧ (fire (ChangeRepo v) b = Some b' →
     repo (app b') = v
     ∧ (v ≠ "" → v ≠ repo (app b) → localStorage b' !! "github_repo" = Some v)
     ∧ (v = "" → localStorage b' = localStorage b))
  ∧ (fire (ChangeGithubToken v) b = Some b' →
     githubToken (app b') = v
     ∧ (v ≠ "" → v ≠ githubToken (app b) →
        localStorage b' !! "github_token" = Some v)
     ∧ (v = "" → localStorage b' = localStorage b))
  ∧ (fire (ChangeDevinApiKey v) b = Some b' →
     devinApiKey (app b') = v
     ∧ (v ≠ "" → v ≠ devinApiKey (app b) →
        localStorage b' !! "devin_api_key" = Some v)
     ∧ (v = "" → localStorage b' = localStorage b))
  ∧ (reachable b → credentialsStored b).
Proof.
  split; [|split; [|split; [|split]]].
  - simpl. rewrite !or_default_empty. repeat split. apply mount_localStorage.
  - intros [Happ Hls]%fire_ChangeRepo. split; [by rewrite Happ|].
    by apply (change_persists _ (repo (app b))).
  - intros [Happ Hls]%fire_ChangeGithubToken. split; [by rewrite Happ|].
    by apply (change_persists _ (githubToken (app b))).
  - intros [Happ Hls]%fire_ChangeDevinApiKey. split; [by rewrite Happ|].
    by apply (change_persists _ (devinApiKey (app b))).
  - apply reachable_credentialsStored.
Qed.

Lemma credentials_persist_in_localStorage_witness :
  fire (ChangeDevinApiKey "") (mount (localStorage scopedBrowser))
  = Some (commit (setDevinApiKey "" (app (mount (localStorage scopedBrowser))))
            (mount (localStorage scopedBrowser)))
  ∧ devinApiKey (app (mount (localStorage scopedBrowser))) = "apk_key"
  ∧ localStorage
      (commit (setDevinApiKey "" (app (mount (localStorage scopedBrowser))))
         (mount (localStorage scopedBrowser)))
    = localStorage scopedBrowser.
Proof.
  split; [reflexivity|].
  destruct (credentials_persist_in_localStorage (localStorage scopedBrowser)
              (mount (localStorage scopedBrowser))
              (commit (setDevinApiKey ""
                         (app (mount (localStorage scopedBrowser))))
                 (mount (localStorage scopedBrowser))) "")
    as ((_ & _ & Hkey & Hmount) & _ & _ & Hchange & _).
  split; [exact Hkey|].
  destruct (Hchange eq_refl) as (_ & _ & Hclear).
  rewrite (Hclear eq_refl). exact Hmount.
Defined.

(** * Further properties of the component *)

(** ** Actions without credentials *)

(** X1: an action refused for want of credentials sends nothing and only
    sets the banner.  [loadIssues] sends its request exactly when the
    repository and the GitHub token are both non-empty, [scopeIssue] and
    [completeIssue] exactly when the Devin API key is; a refused action
    leaves [loading] down as it was, shows a non-empty banner and changes
    nothing else, while an accepted one raises [loading] and clears the
    banner. *)
Theorem actions_need_credentials (st : App) (k : Z) :
  (is_Some (loadIssues_start st).2 ↔ repo st ≠ "" ∧ githubToken st ≠ "")
  ∧ (is_Some (scopeIssue_start k st).2 ↔ devinApiKey st ≠ "")
  ∧ (is_Some (completeIssue_start k st).2 ↔ devinApiKey st ≠ "")
  ∧ ∀ out, out ∈ [ loadIssues_start st; scopeIssue_start k st;
                    completeIssue_start k st ] →
      match out.2 with
      | None => ∃ banner, banner ≠ "" ∧ out.1 = setError banner st
      | Some _ => out.1 = setError "" (setLoading true st)
      end.
Proof.
  unfold loadIssues_start, scopeIssue_start, completeIssue_start.
  rewrite <- !truthy_true.
  split; [|split; [|split]].
  - destruct (truthy (repo st)), (truthy (githubToken st)); simpl;
      split; intros H; eauto; first [by apply is_Some_None in H | by destruct H].
  - destruct (truthy (devinApiKey st)); simpl;
      split; intros H; eauto; first [by apply is_Some_None in H | done].
  - destruct (truthy (devinApiKey st)); simpl;
      split; intros H; eauto; first [by apply is_Some_None in H | done].
  - intros out. rewrite !elem_of_cons, elem_of_nil.
    intros [->|[->|[->|[]]]].
    + destruct (truthy (repo st)), (truthy (githubToken st)); simpl;
        try done; eexists; (split; [|reflexivity]); done.
    + destruct (truthy (devinApiKey st)); simpl; try done;
        eexists; (split; [|reflexivity]); done.
    + destruct (truthy (devinApiKey st)); simpl; try done;
        eexists; (split; [|reflexivity]); done.
Qed.

Lemma actions_need_credentials_witness :
  scopeIssue_start 1 noKeyApp
  ∈ [ loadIssues_start noKeyApp; scopeIssue_start 1 noKeyApp;
      completeIssue_start 1 noKeyApp ]
  ∧ (scopeIssue_start 1 noKeyApp).2 = None
  ∧ ∃ banner, banner ≠ "" ∧ (scopeIssue_start 1 noKeyApp).1
                             = setError banner noKeyApp.
Proof.
  assert (H : scopeIssue_start 1 noKeyApp
    ∈ [ loadIssues_start noKeyApp; scopeIssue_start 1 noKeyApp;
        completeIssue_start 1 noKeyApp ]) by (right; left).
  split; [exact H|]. split; [reflexivity|].
  exact (proj2 (proj2 (proj2 (actions_need_credentials noKeyApp 1))) _ H).
Defined.

(** ** One user action at a time *)

Lemma countUser_one l :
  countUser l = 1%nat → ∃ p, p ∈ l ∧ userRequest p = true.
Proof.
  unfold countUser. induction l as [|q l IH]; simpl; [done|].
  destruct (userRequest q) eqn:Hq.
  - intros _. exists q. split; [left|done].
  - intros (p & Hin & Hp)%IH. exists p. split; [by right|done].
Qed.

(** X2: user actions never overlap.  In every state the page can reach at
    most one load, scope or complete request is waiting for its response;
    [loading] is up exactly while there is one, so with nothing in flight
    the buttons are not held disabled by [loading]. *)
Theorem user_requests_never_overlap (b : Browser) :
  reachable b →
  (countUser (inFlight b) ≤ 1)%nat
  ∧ (loading (app b) = true ↔ ∃ p, p ∈ inFlight b ∧ userRequest p = true)
  ∧ (inFlight b = [] → loading (app b) = false).
Proof.
  intros Hinv%reachable_loadingTracksRequest.
  unfold loadingTracksRequest in Hinv. split; [|split].
  - rewrite Hinv. destruct (loading (app b)); lia.
  - split.
    + intros Hl. rewrite Hl in Hinv. by apply countUser_one.
    + intros (p & Hin & Hp). destruct (loading (app b)); [done|].
      pose proof (proj1 (countUser_zero _) Hinv p Hin) as Hnone. congruence.
  - intros Hnil. rewrite Hnil in Hinv. by destruct (loading (app b)).
Qed.

Lemma user_requests_never_overlap_witness :
  reachable scopedBrowser ∧ loading (app scopedBrowser) = false.
Proof.
  split; [exists ∅, scopeEvents; vm_compute; reflexivity|].
  apply (user_requests_never_overlap scopedBrowser scopedBrowser_reachable).
  reflexivity.
Defined.

(** ** What goes out on the network *)

Lemma network_send p req b :
  network (send p req b) = (network b ++ option_list req)%list.
Proof. destruct req; simpl; [done|by rewrite app_nil_r]. Qed.

Lemma network_consoleError err b : network (consoleError err b) = network b.
Proof. by destruct err. Qed.

(** Requests are only ever appended, and only by clicks and the timer. *)
Lemma fire_network e b b' :
  fire e b = Some b' → network b' = (network b ++ sentBy e b)%list.
Proof.
  destruct e; simpl; intros H.
  - destruct (configured (app b)); simplify_eq. by rewrite app_nil_r.
  - destruct (configured (app b)); simplify_eq. by rewrite app_nil_r.
  - destruct (configured (app b)); simplify_eq. by rewrite app_nil_r.
  - destruct (configured (app b) || connectDisabled (app b)); [done|].
    destruct (loadIssues_start (app b)) as [st' req]. simplify_eq.
    by rewrite network_send.
  - destruct (configured (app b)); simplify_eq. by rewrite app_nil_r.
  - destruct (configured (app b) && issueShown issueNumber (app b)
              && negb (scopeDisabled issueNumber (app b))); [|done].
    destruct (scopeIssue_start issueNumber (app b)) as [st' req]. simplify_eq.
    by rewrite network_send.
  - destruct (configured (app b) && issueShown issueNumber (app b)
              && negb (completeDisabled issueNumber (app b))); [|done].
    destruct (completeIssue_start issueNumber (app b)) as [st' req]. simplify_eq.
    by rewrite network_send.
  - by apply fire_TimerFires_network.
  - destruct (inFlight b !! i) as [[]|]; simplify_eq. by rewrite app_nil_r.
  - destruct (inFlight b !! i) as [[| k | k | k]|]; try done; simplify_eq;
      simpl; try by rewrite app_nil_r.
    destruct (checkSessionStatus_finish k r (app b)) as [st' err]. simplify_eq.
    rewrite network_consoleError. simpl. by rewrite app_nil_r.
Qed.

Lemma sentBy_checkedFieldsPresent e b b' req :
  fire e b = Some b' → req ∈ sentBy e b → checkedFieldsPresent req = true.
Proof.
  destruct e; simpl; try (by intros _ ?%elem_of_nil).
  - unfold connectDisabled, loadIssues_start.
    destruct (configured (app b)); [done|].
    destruct (loading (app b)); [done|].
    destruct (truthy (repo (app b))) eqn:Hr; [|done].
    destruct (truthy (githubToken (app b))) eqn:Ht; [|done].
    simpl. intros _ ->%list_elem_of_singleton. simpl. by rewrite Hr, Ht.
  - intros _. unfold scopeIssue_start.
    destruct (truthy (devinApiKey (app b))) eqn:Hk; simpl;
      [|by intros ?%elem_of_nil].
    by intros ->%list_elem_of_singleton.
  - intros _. unfold completeIssue_start.
    destruct (truthy (devinApiKey (app b))) eqn:Hk; simpl;
      [|by intros ?%elem_of_nil].
    by intros ->%list_elem_of_singleton.
  - intros _ [[k r] [-> Hin]]%list_elem_of_fmap.
    apply elem_of_tickRequests in Hin. destruct Hin as (Hk & s & _ & _ & ->).
    done.
Qed.

(** The [repo] and [github_token] of a scope request can be empty: the
    form fields stay editable while the load is in flight, and [scopeIssue]
    tests the Devin API key only. *)
Lemma scope_request_may_lack_repo :
  ∃ b, run [ ChangeRepo "octo/demo"; ChangeGithubToken "ghp_token";
             ChangeDevinApiKey "apk_key"; ClickConnect;
             ChangeRepo ""; ChangeGithubToken "";
             IssuesArrive 0 (ok [demoIssue]); ClickScope 1 ]
           (mount ∅) = Some b
       ∧ network b
         = [ GetIssues "octo/demo" "ghp_token";
             PostJson "/api/scope"
               [("repo", JString ""); ("issue_number", JNumber 1);
                ("github_token", JString "");
                ("devin_api_key", JString "apk_key")] ].
Proof. eexists. split; [vm_compute; reflexivity|]. reflexivity. Qed.

(** X3: every request the current component sends has passed the test its
    handler makes before the fetch.  Of all requests sent in any run of the
    page, the issue list is asked for with a non-empty repository and
    GitHub token, and every scope, complete and status request carries a
    non-empty Devin API key.  (Nothing is said of the [repo] and
    [github_token] of a scope or complete request, which can be empty.) *)
Theorem sent_requests_pass_handler_checks (b : Browser) (req : Request) :
  reachable b → req ∈ network b → checkedFieldsPresent req = true.
Proof.
  intros (storage & events & Hrun). revert req.
  apply (run_invariant
           (λ b, ∀ req, req ∈ network b → checkedFieldsPresent req = true)
           events (mount storage) b); [|done|].
  - intros e b1 b2 Hfire IH req. rewrite (fire_network _ _ _ Hfire).
    intros [Hin|Hin]%elem_of_app; [by apply IH|].
    by apply (sentBy_checkedFieldsPresent e b1 b2).
  - by intros req ?%elem_of_nil.
Qed.

Lemma sent_requests_pass_handler_checks_witness :
  reachable scopedBrowser
  ∧ GetIssues "octo/demo" "ghp_token" ∈ network scopedBrowser
  ∧ checkedFieldsPresent (GetIssues "octo/demo" "ghp_token") = true.
Proof.
  assert (Hin : GetIssues "octo/demo" "ghp_token" ∈ network scopedBrowser)
    by left.
  split; [exists ∅, scopeEvents; vm_compute; reflexivity|].
  split; [exact Hin|].
  exact (sent_requests_pass_handler_checks scopedBrowser _ scopedBrowser_reachable Hin).
Defined.

(** ** What is written to [localStorage] *)

Lemma fire_sameCredentials e b b' :
  fire e b = Some b' → isEdit e = false → sameCredentials (app b) (app b').
Proof.
  intros Hfire Hedit. rewrite (fire_app _ _ _ Hfire). unfold sameCredentials.
  destruct e; try done; lazy beta iota.
  - unfold loadIssues_start. by case_match.
  - unfold scopeIssue_start. by case_match.
  - unfold completeIssue_start. by case_match.
  - unfold loadIssues_finish. by case_match.
  - destruct (inFlight b !! i) as [[| k | k | k]|]; try done.
    + unfold scopeIssue_finish. by case_match.
    + unfold completeIssue_finish. by case_match.
    + unfold checkSessionStatus_finish. by case_match.
Qed.

Lemma persist_lookup_value key key' v w (storage : gmap string string) :
  persist key v storage !! key' = Some w →
  storage !! key' = Some w ∨ (key' = key ∧ w = v ∧ v ≠ "").
Proof.
  unfold persist. destruct (truthy v) eqn:Hv; [|by left].
  destruct (decide (key = key')) as [->|Hne].
  - rewrite lookup_insert_eq. intros [= ->]. right.
    by rewrite <- truthy_true.
  - rewrite lookup_insert_ne by done. by left.
Qed.

Lemma persistenceEffects_lookup_value prev next key w
    (storage : gmap string string) :
  persistenceEffects prev next storage !! key = Some w →
  storage !! key = Some w ∨ (key ∈ storageKeys ∧ w ≠ "").
Proof.
  unfold persistenceEffects, storageKeys.
  destruct (effectRuns (repo <$> prev) (repo next)),
    (effectRuns (githubToken <$> prev) (githubToken next)),
    (effectRuns (devinApiKey <$> prev) (devinApiKey next));
    intros H;
    repeat match type of H with
      | persist _ _ _ !! _ = Some _ =>
          apply persist_lookup_value in H;
          destruct H as [H|(-> & -> & ?)]; [|right; split; [set_solver|done]]
      end;
    by left.
Qed.

(** X4: only an edit of a credential field writes to [localStorage], and
    the component writes nothing but non-empty strings under its three
    keys.  Any other event (a click, a timer firing, a response) leaves the
    storage exactly as it was; and after any run of the page an entry of
    the storage is either the one the page was started with or a non-empty
    string under "github_repo", "github_token" or "devin_api_key". *)
Theorem storage_written_by_edits_only
    (storage : gmap string string) (events : list Event) (b : Browser) :
  run events (mount storage) = Some b →
  (∀ e b', fire e b = Some b' → isEdit e = false →
           localStorage b' = localStorage b)
  ∧ (∀ key w, localStorage b !! key = Some w →
              storage !! key = Some w ∨ (key ∈ storageKeys ∧ w ≠ "")).
Proof.
  intros Hrun. split.
  - intros e b' Hfire Hedit. rewrite (fire_localStorage _ _ _ Hfire).
    apply persistenceEffects_same. by apply (fire_sameCredentials e).
  - apply (run_invariant
             (λ b, ∀ key w, localStorage b !! key = Some w →
                   storage !! key = Some w ∨ (key ∈ storageKeys ∧ w ≠ ""))
             events (mount storage) b); [|done|].
    + intros e b1 b2 Hfire IH key w. rewrite (fire_localStorage _ _ _ Hfire).
      intros [H|H]%persistenceEffects_lookup_value; [by apply IH|by right].
    + intros key w. rewrite mount_localStorage. by left.
Qed.

Lemma storage_written_by_edits_only_witness :
  run scopeEvents (mount ∅) = Some scopedBrowser
  ∧ ∀ key w, localStorage scopedBrowser !! key = Some w →
             (∅ : gmap string string) !! key = Some w
             ∨ (key ∈ storageKeys ∧ w ≠ "").
Proof.
  assert (H : run scopeEvents (mount ∅) = Some scopedBrowser)
    by (vm_compute; reflexivity).
  split; [exact H|].
  exact (proj2 (storage_written_by_edits_only ∅ scopeEvents scopedBrowser H)).
Defined.

(** ** Responses in sequence *)

Lemma sessionStores_sessions store k data st :
  store ∈ sessionStores →
  sessions (store k (ok data) st) = <[k := data]> (sessions st).
Proof.
  unfold sessionStores. rewrite !elem_of_cons, elem_of_nil.
  intros [->|[->|[->|[]]]]; reflexivity.
Qed.

(** X5: session responses are applied in the order they arrive, whatever
    sent them.  Of two successful responses for the same issue the later
    one alone determines the stored record, so a status refresh that
    arrives after a complete response replaces the complete's record;
    responses for different issues commute. *)
Theorem last_response_wins
    (store1 store2 : Z → FetchResult Session.t → App → App)
    (st : App) (k j : Z) (d1 d2 : Session.t) :
  store1 ∈ sessionStores → store2 ∈ sessionStores →
  sessions (store2 k (ok d2) (store1 k (ok d1) st))
  = sessions (store2 k (ok d2) st)
  ∧ sessions (store2 k (ok d2) (store1 k (ok d1) st)) !! k = Some d2
  ∧ (k ≠ j →
     sessions (store2 j (ok d2) (store1 k (ok d1) st))
     = sessions (store1 k (ok d1) (store2 j (ok d2) st))).
Proof.
  intros H1 H2. rewrite !(sessionStores_sessions store2) by done.
  rewrite !(sessionStores_sessions store1) by done.
  rewrite ?(sessionStores_sessions store2) by done.
  split; [apply insert_insert_eq|]. split; [apply lookup_insert_eq|].
  intros Hne. by apply insert_insert_ne.
Qed.

Lemma last_response_wins_witness :
  completeIssue_finish ∈ sessionStores
  ∧ (λ k r st, (checkSessionStatus_finish k r st).1) ∈ sessionStores
  ∧ sessions (checkSessionStatus_finish 1 (ok scopingSession)
                (completeIssue_finish 1 (ok blockedSession) connectedApp)).1
      !! 1 = Some scopingSession.
Proof.
  assert (H1 : completeIssue_finish ∈ sessionStores) by (right; left).
  assert (H2 : (λ k r st, (checkSessionStatus_finish k r st).1)
               ∈ sessionStores) by (right; right; left).
  split; [exact H1|]. split; [exact H2|].
  exact (proj1 (proj2 (last_response_wins _ _ connectedApp 1 1
                         blockedSession scopingSession H1 H2))).
Defined.

(** ** The timer does not wait for its refreshes *)

Lemma inFlight_foldl_send_app calls b :
  inFlight (foldl (λ acc '(k, req), send (PendingRefresh k) req acc) b calls)
  = (inFlight b
     ++ (omap (λ '(k, req), (λ _ : Request, PendingRefresh k) <$> req) calls))%list.
Proof.
  revert b. induction calls as [|[k [req|]] calls IH]; intros b; simpl.
  - by rewrite app_nil_r.
  - rewrite IH. simpl. by rewrite <- app_assoc.
  - by rewrite IH.
Qed.

(** X6: a firing of the timer changes nothing of the component state, so
    a second firing before any response arrives sends every status request
    again: the poller keeps no record of the refreshes it has in flight. *)
Theorem poll_repeats_outstanding_refreshes (b b1 : Browser) :
  fire TimerFires b = Some b1 →
  app b1 = app b
  ∧ ∃ b2, fire TimerFires b1 = Some b2
          ∧ app b2 = app b
          ∧ network b2 = (network b ++ (tickRequests (app b)).*2
                          ++ (tickRequests (app b)).*2)%list
          ∧ length (inFlight b2)
            = (length (inFlight b) + 2 * length (tickRequests (app b)))%nat.
Proof.
  intros Hfire. pose proof (fire_app _ _ _ Hfire) as Happ. simpl in Happ.
  split; [done|].
  assert (Hlen : ∀ c c', fire TimerFires c = Some c' →
    length (inFlight c') = (length (inFlight c) + length (tickRequests (app c)))%nat).
  { intros c c'. simpl. unfold tickRequests.
    destruct (pollTick (app c)) as [calls|]; [|done]. intros [= <-].
    rewrite inFlight_foldl_send_app, length_app. f_equal.
    clear. induction calls as [|[k [req|]] calls IH]; simpl; auto. }
  destruct (fire TimerFires b1) as [b2|] eqn:Hfire2.
  - exists b2. split; [done|].
    pose proof (fire_app _ _ _ Hfire2) as Happ2. simpl in Happ2.
    split; [congruence|]. split.
    + rewrite (fire_network _ _ _ Hfire2), (fire_network _ _ _ Hfire). simpl.
      by rewrite Happ, <- app_assoc.
    + rewrite (Hlen _ _ Hfire2), (Hlen _ _ Hfire), Happ. lia.
  - exfalso. simpl in Hfire, Hfire2. rewrite Happ in Hfire2.
    by destruct (pollTick (app b)).
Qed.

Lemma poll_repeats_outstanding_refreshes_witness :
  fire TimerFires scopedBrowser
  = Some (send (PendingRefresh 1) (Some (GetSession "s1" "apk_key")) scopedBrowser)
  ∧ ∃ b2,
      fire TimerFires
        (send (PendingRefresh 1) (Some (GetSession "s1" "apk_key")) scopedBrowser)
      = Some b2
      ∧ app b2 = app scopedBrowser
      ∧ network b2 = (network scopedBrowser ++ (tickRequests scopingApp).*2
                      ++ (tickRequests scopingApp).*2)%list
      ∧ length (inFlight b2) = 2%nat.
Proof.
  assert (H : fire TimerFires scopedBrowser
    = Some (send (PendingRefresh 1) (Some (GetSession "s1" "apk_key"))
              scopedBrowser)) by (vm_compute; reflexivity).
  split; [exact H|].
  exact (proj2 (poll_repeats_outstanding_refreshes _ _ H)).
Defined.

(** ** Records are never removed *)

Lemma fire_sessions_kept k e b b' :
  fire e b = Some b' →
  is_Some (sessions (app b) !! k) → is_Some (sessions (app b') !! k).
Proof.
  intros Hfire Hk. rewrite (fire_app _ _ _ Hfire).
  destruct e; lazy beta iota; try done.
  - by rewrite start_sessions_load.
  - by rewrite start_sessions_scope.
  - by rewrite start_sessions_complete.
  - by rewrite loadIssues_finish_sessions.
  - destruct (inFlight b !! i) as [[| k' | k' | k']|]; try done.
    + rewrite scopeIssue_finish_sessions. case_match; [done|].
      rewrite lookup_insert_is_Some. destruct (decide (k' = k)); auto.
    + rewrite completeIssue_finish_sessions. case_match; [done|].
      rewrite lookup_insert_is_Some. destruct (decide (k' = k)); auto.
    + rewrite checkSessionStatus_finish_sessions. case_match; [done|].
      rewrite lookup_insert_is_Some. destruct (decide (k' = k)); auto.
Qed.

(** X7: the sessions map only grows.  Once an issue has a record, no run
    of events removes it: the issue keeps a record (possibly replaced),
    its scope button stays disabled, and a click on it is never handled
    again for as long as the page lives. *)
Theorem tracked_issue_stays_tracked
    (events : list Event) (b b' : Browser) (k : Z) :
  run events b = Some b' → is_Some (sessions (app b) !! k) →
  is_Some (sessions (app b') !! k)
  ∧ scopeDisabled k (app b') = true
  ∧ fire (ClickScope k) b' = None.
Proof.
  intros Hrun Hk.
  assert (Hk' : is_Some (sessions (app b') !! k)).
  { revert Hk.
    apply (run_invariant (λ b, is_Some (sessions (app b) !! k)) events b b');
      [|done].
    intros e b1 b2 Hfire. by apply (fire_sessions_kept k e). }
  assert (Hdis : scopeDisabled k (app b') = true).
  { unfold scopeDisabled. rewrite bool_decide_eq_true_2 by done.
    apply orb_true_r. }
  split; [done|]. split; [done|].
  simpl. rewrite Hdis. simpl. by rewrite andb_false_r.
Qed.

Lemma tracked_issue_stays_tracked_witness :
  run [TimerFires; SessionArrives 0 (ok finishedSession);
       ClickComplete 1; SessionArrives 0 (Rejected ThrownValue)]
      scopedBrowser
  = Some {| app := setError "Failed to complete issue" finishedApp;
            localStorage := localStorage scopedBrowser;
            inFlight := [];
            network :=
              (network scopedBrowser
               ++ [ GetSession "s1" "apk_key";
                    PostJson "/api/complete"
                      [("repo", JString "octo/demo");
                       ("issue_number", JNumber 1);
                       ("github_token", JString "ghp_token");
                       ("devin_api_key", JString "apk_key");
                       ("session_id", JString "s1")] ])%list;
            console := [] |}
  ∧ is_Some (sessions (app scopedBrowser) !! 1)
  ∧ scopeDisabled 1 (setError "Failed to complete issue" finishedApp) = true.
Proof.
  assert (H : run [TimerFires; SessionArrives 0 (ok finishedSession);
       ClickComplete 1; SessionArrives 0 (Rejected ThrownValue)]
      scopedBrowser
  = Some {| app := setError "Failed to complete issue" finishedApp;
            localStorage := localStorage scopedBrowser;
            inFlight := [];
            network :=
              (network scopedBrowser
               ++ [ GetSession "s1" "apk_key";
                    PostJson "/api/complete"
                      [("repo", JString "octo/demo");
                       ("issue_number", JNumber 1);
                       ("github_token", JString "ghp_token");
                       ("devin_api_key", JString "apk_key");
                       ("session_id", JString "s1")] ])%list;
            console := [] |}) by (vm_compute; reflexivity).
  assert (Hk : is_Some (sessions (app scopedBrowser) !! 1))
    by (exists scopingSession; reflexivity).
  split; [exact H|]. split; [exact Hk|].
  exact (proj1 (proj2 (tracked_issue_stays_tracked _ _ _ 1 H Hk))).
Defined.

(** ** The badge and the poller *)

(** X8: the status badge and the poller agree.  A tracked session is
    refreshed by a firing of the timer exactly when its badge is not the
    outline one: "default" marks an implementing session, "secondary" a
    scoping one, and a session shown with the outline badge is no longer
    polled. *)
Theorem outline_badge_means_not_polled
    (st : App) (k : Z) (s : Session.t) calls :
  sessions st !! k = Some s → pollTick st = Some calls →
  ((∃ c, (k, c) ∈ calls) ↔ statusBadge s ≠ VariantOutline)
  ∧ (statusBadge s = VariantDefault ↔ Session.status s = "implementing")
  ∧ (statusBadge s = VariantSecondary ↔ Session.status s = "scoping")
  ∧ statusBadge s ≠ VariantDestructive.
Proof.
  intros Hs Hpoll.
  assert (Hbadge : nonTerminal s = true ↔ statusBadge s ≠ VariantOutline).
  { unfold nonTerminal, statusBadge.
    destruct (String.eqb (Session.status s) "implementing"),
      (String.eqb (Session.status s) "scoping"); simpl; split; done. }
  split; [|split; [|split]].
  - rewrite <- Hbadge. split.
    + intros [c Hin]. apply (elem_of_pollTick _ _ _ _ Hpoll) in Hin.
      destruct Hin as (s' & Hs' & Hnt & _). by simplify_eq.
    + intros Hnt. eexists. apply (elem_of_pollTick _ _ _ _ Hpoll). eauto.
  - unfold statusBadge.
    destruct (String.eqb_spec (Session.status s) "implementing") as [->|Hne].
    + done.
    + split; [|done]. by destruct (String.eqb (Session.status s) "scoping").
  - unfold statusBadge.
    destruct (String.eqb_spec (Session.status s) "implementing") as [->|Hne].
    + done.
    + destruct (String.eqb_spec (Session.status s) "scoping"); done.
  - unfold statusBadge.
    by destruct (String.eqb (Session.status s) "implementing"),
      (String.eqb (Session.status s) "scoping").
Qed.

Lemma outline_badge_means_not_polled_witness :
  sessions finishedApp !! 1 = Some finishedSession
  ∧ pollTick finishedApp = Some []
  ∧ statusBadge finishedSession = VariantOutline.
Proof.
  split; [reflexivity|]. split; [reflexivity|].
  destruct (outline_badge_means_not_polled finishedApp 1 finishedSession []
              eq_refl eq_refl) as (H & _).
  destruct (statusBadge finishedSession) eqn:Hb; try reflexivity;
    exfalso; (assert (Hex : ∃ c, (1, c) ∈ ([] : list (Z * option Request)))
                by (apply H; discriminate));
    destruct Hex as [c Hc]; by apply elem_of_nil in Hc.
Defined.

(** ** The two copies of the poller *)

(** X9: with a Devin API key entered, the poller of the copy under
    [github-issues-integration/] makes the same calls and sends the same
    requests as the current one; with the key empty the current one makes
    none, while the copy still sends one request per scoping or
    implementing session, each with an empty key. *)
Theorem bundled_poller_agrees_with_credential (st : App) :
  (devinApiKey st ≠ "" →
   Bundled.pollTick st = pollTick st
   ∧ Bundled.tickRequests st = tickRequests st)
  ∧ (devinApiKey st = "" →
     tickRequests st = []
     ∧ ∀ k req, (k, req) ∈ Bundled.tickRequests st ↔
         ∃ s, sessions st !! k = Some s ∧ nonTerminal s = true
              ∧ req = GetSession (Session.session_id s) "").
Proof.
  split.
  - intros Hkey%truthy_true.
    assert (Hpoll : Bundled.pollTick st = pollTick st).
    { unfold Bundled.pollTick, pollTick. rewrite Hkey. simpl. f_equal.
      apply list_fmap_ext. intros i [k sid] _.
      unfold Bundled.checkSessionStatus_start, checkSessionStatus_start.
      by rewrite Hkey. }
    split; [done|]. unfold Bundled.tickRequests, tickRequests. by rewrite Hpoll.
  - intros Hkey. split; [by apply no_credential_no_poll|].
    intros k req. unfold Bundled.tickRequests, Bundled.pollTick.
    rewrite list_elem_of_omap. split.
    + intros [[k' c] [Hin Hf]].
      apply list_elem_of_fmap in Hin as [[k'' sid] [Heq Hin]].
      apply elem_of_intervalCallback in Hin as (s & Hs & Hnt & ->).
      unfold Bundled.checkSessionStatus_start in Heq. rewrite Hkey in Heq.
      simplify_eq. simpl in Hf. simplify_eq. eauto.
    + intros (s & Hs & Hnt & ->).
      exists (k, Some (GetSession (Session.session_id s) "")). split; [|done].
      apply list_elem_of_fmap. exists (k, Session.session_id s). split.
      * unfold Bundled.checkSessionStatus_start. by rewrite Hkey.
      * apply elem_of_intervalCallback. eauto.
Qed.

Lemma bundled_poller_agrees_with_credential_witness :
  devinApiKey scopingApp ≠ ""
  ∧ Bundled.tickRequests scopingApp = [(1, GetSession "s1" "apk_key")].
Proof.
  split; [done|].
  rewrite (proj2 (proj1 (bundled_poller_agrees_with_credential scopingApp)
                    ltac:(done))).
  reflexivity.
Defined.

(** ** Where records come from *)

Lemma elem_of_delete_list {A} (l : list A) i x : x ∈ delete i l → x ∈ l.
Proof.
  revert i. induction l as [|y l IH]; intros [|i]; simpl; try done.
  - intros ?. by right.
  - intros [->|Hin]%elem_of_cons; [left|right; eauto].
Qed.

Lemma inFlight_send p req b :
  inFlight (send p req b)
  = (inFlight b ++ match req with Some _ => [p] | None => [] end)%list.
Proof. destruct req; simpl; [done|by rewrite app_nil_r]. Qed.

Lemma inFlight_consoleError err b : inFlight (consoleError err b) = inFlight b.
Proof. by destruct err. Qed.

Lemma scopeIssue_start_targets k st req :
  (scopeIssue_start k st).2 = Some req → targets k req = true.
Proof.
  unfold scopeIssue_start. destruct (negb (truthy (devinApiKey st))); [done|].
  intros [= <-]. simpl. apply Z.eqb_refl.
Qed.

Lemma completeIssue_start_targets k st req :
  (completeIssue_start k st).2 = Some req → targets k req = true.
Proof.
  unfold completeIssue_start. destruct (negb (truthy (devinApiKey st))); [done|].
  intros [= <-]. simpl. apply Z.eqb_refl.
Qed.

(** A pending session request is an old one, comes with a scope or
    complete request for its issue, or refreshes a tracked issue. *)
Lemma fire_inFlight_origin e b b' p k :
  fire e b = Some b' → p ∈ inFlight b' → pendingIssue p = Some k →
  p ∈ inFlight b
  ∨ (∃ req, req ∈ sentBy e b ∧ targets k req = true)
  ∨ is_Some (sessions (app b) !! k).
Proof.
  destruct e; simpl; intros Hfire Hin Hp.
  - destruct (configured (app b)); simplify_eq. by left.
  - destruct (configured (app b)); simplify_eq. by left.
  - destruct (configured (app b)); simplify_eq. by left.
  - destruct (configured (app b) || connectDisabled (app b)); [done|].
    destruct (loadIssues_start (app b)) as [st' req]. simplify_eq.
    rewrite inFlight_send in Hin. apply elem_of_app in Hin as [Hin|Hin];
      [by left|]. destruct req; [|by apply elem_of_nil in Hin].
    apply list_elem_of_singleton in Hin. by subst.
  - destruct (configured (app b)); simplify_eq. by left.
  - destruct (configured (app b) && issueShown issueNumber (app b)
              && negb (scopeDisabled issueNumber (app b))); [|done].
    destruct (scopeIssue_start issueNumber (app b)) as [st' req] eqn:Hstart.
    simplify_eq. rewrite inFlight_send in Hin.
    apply elem_of_app in Hin as [Hin|Hin]; [by left|].
    destruct req as [r|]; [|by apply elem_of_nil in Hin].
    apply list_elem_of_singleton in Hin. subst. simpl in Hp. simplify_eq.
    right; left. exists r. split; [by left|].
    apply (scopeIssue_start_targets k (app b)). by rewrite Hstart.
  - destruct (configured (app b) && issueShown issueNumber (app b)
              && negb (completeDisabled issueNumber (app b))); [|done].
    destruct (completeIssue_start issueNumber (app b)) as [st' req] eqn:Hstart.
    simplify_eq. rewrite inFlight_send in Hin.
    apply elem_of_app in Hin as [Hin|Hin]; [by left|].
    destruct req as [r|]; [|by apply elem_of_nil in Hin].
    apply list_elem_of_singleton in Hin. subst. simpl in Hp. simplify_eq.
    right; left. exists r. split; [by left|].
    apply (completeIssue_start_targets k (app b)). by rewrite Hstart.
  - destruct (pollTick (app b)) as [calls|] eqn:Hpoll; [|done]. simplify_eq.
    rewrite inFlight_foldl_send_app in Hin.
    apply elem_of_app in Hin as [Hin|Hin]; [by left|]. right; right.
    apply list_elem_of_omap in Hin as [[k' c] [Hin Hf]].
    destruct c as [r|]; simpl in Hf; simplify_eq. simpl in Hp. simplify_eq.
    apply (elem_of_pollTick _ _ _ _ Hpoll) in Hin as (s & Hs & _). eauto.
  - destruct (inFlight b !! i) as [[]|]; simplify_eq. simpl in Hin.
    left. by apply elem_of_delete_list in Hin.
  - left. destruct (inFlight b !! i) as [[| k' | k' | k']|]; try done;
      simplify_eq; simpl in Hin; try by apply elem_of_delete_list in Hin.
    destruct (checkSessionStatus_finish k' r (app b)) as [st' err]. simplify_eq.
    rewrite inFlight_consoleError in Hin. simpl in Hin.
    by apply elem_of_delete_list in Hin.
Qed.

(** A record is an old one or the response to a pending session request. *)
Lemma fire_sessions_origin e b b' k :
  fire e b = Some b' → is_Some (sessions (app b') !! k) →
  is_Some (sessions (app b) !! k)
  ∨ ∃ p, p ∈ inFlight b ∧ pendingIssue p = Some k.
Proof.
  intros Hfire. rewrite (fire_app _ _ _ Hfire).
  destruct e; lazy beta iota; try (by left).
  - rewrite start_sessions_load. by left.
  - rewrite start_sessions_scope. by left.
  - rewrite start_sessions_complete. by left.
  - rewrite loadIssues_finish_sessions. by left.
  - destruct (inFlight b !! i) as [[| k' | k' | k']|] eqn:Hp; try (by left).
    + rewrite scopeIssue_finish_sessions. case_match; [by left|].
      rewrite lookup_insert_is_Some. intros [->|[_ ?]]; [|by left].
      right. eexists. split; [by eapply list_elem_of_lookup_2|done].
    + rewrite completeIssue_finish_sessions. case_match; [by left|].
      rewrite lookup_insert_is_Some. intros [->|[_ ?]]; [|by left].
      right. eexists. split; [by eapply list_elem_of_lookup_2|done].
    + rewrite checkSessionStatus_finish_sessions. case_match; [by left|].
      rewrite lookup_insert_is_Some. intros [->|[_ ?]]; [|by left].
      right. eexists. split; [by eapply list_elem_of_lookup_2|done].
Qed.

Lemma fire_sessionsRequested e b b' :
  fire e b = Some b' → sessionsRequested b → sessionsRequested b'.
Proof.
  intros Hfire [Hrec Hpend].
  assert (Hmono : ∀ k, (∃ req, req ∈ network b ∧ targets k req = true) →
                       ∃ req, req ∈ network b' ∧ targets k req = true).
  { intros k (req & Hin & Ht). exists req. split; [|done].
    rewrite (fire_network _ _ _ Hfire). apply elem_of_app. by left. }
  assert (Hpend' : ∀ p k, p ∈ inFlight b' → pendingIssue p = Some k →
                          ∃ req, req ∈ network b' ∧ targets k req = true).
  { intros p k Hin Hp.
    destruct (fire_inFlight_origin _ _ _ _ _ Hfire Hin Hp)
      as [Hold|[(req & Hsent & Ht)|Hs]].
    - apply Hmono. by apply (Hpend p).
    - exists req. split; [|done].
      rewrite (fire_network _ _ _ Hfire). apply elem_of_app. by right.
    - apply Hmono. by apply Hrec. }
  split; [|done].
  intros k Hk. destruct (fire_sessions_origin _ _ _ _ Hfire Hk)
    as [Hold|(p & Hin & Hp)]; apply Hmono; [by apply Hrec|by apply (Hpend p)].
Qed.

(** X10: no record appears out of nowhere.  In every state the page can
    reach, each issue that has a session record is one for which the page
    has sent a scope or complete request. *)
Theorem records_come_from_user_requests (b : Browser) (k : Z) :
  reachable b → is_Some (sessions (app b) !! k) →
  ∃ path body,
    PostJson path body ∈ network b
    ∧ property "issue_number" body = Some (JNumber k).
Proof.
  intros Hreach Hk.
  assert (Hinv : sessionsRequested b).
  { destruct Hreach as (storage & events & Hrun).
    apply (run_invariant sessionsRequested _ _ _ fire_sessionsRequested Hrun).
    split.
    - intros j [s Hs]. simpl in Hs. by rewrite lookup_empty in Hs.
    - by intros p j ?%elem_of_nil. }
  destruct (proj1 Hinv k Hk) as (req & Hin & Ht).
  destruct req as [| path body |]; try done. exists path, body.
  split; [done|].
  simpl in Ht. destruct (property "issue_number" body) as [[|n]|]; try done.
  by apply Z.eqb_eq in Ht as ->.
Qed.

Lemma records_come_from_user_requests_witness :
  reachable scopedBrowser
  ∧ is_Some (sessions (app scopedBrowser) !! 1)
  ∧ ∃ path body,
      PostJson path body ∈ network scopedBrowser
      ∧ property "issue_number" body = Some (JNumber 1).
Proof.
  assert (Hk : is_Some (sessions (app scopedBrowser) !! 1))
    by (exists scopingSession; reflexivity).
  split; [exists ∅, scopeEvents; vm_compute; reflexivity|].
  split; [exact Hk|].
  exact (records_come_from_user_requests scopedBrowser 1
           scopedBrowser_reachable Hk).
Defined.

(** ** The issue list *)

(** X11: the issue list and the dashboard change hands only when a load
    succeeds.  A successful issues response replaces the list by its
    payload, opens the dashboard and lowers [loading], and it keeps the
    sessions map, which is keyed by issue number alone; every other event,
    a failed load included, leaves the list as it was and never opens the
    dashboard. *)
Theorem issue_list_changes_on_successful_load (e : Event) (b b' : Browser) :
  fire e b = Some b' →
  (∀ i data, e = IssuesArrive i (ok data) →
     issues (app b') = data ∧ configured (app b') = true
     ∧ loading (app b') = false ∧ sessions (app b') = sessions (app b))
  ∧ ((∀ i data, e ≠ IssuesArrive i (ok data)) →
     issues (app b') = issues (app b)
     ∧ (configured (app b') = true → configured (app b) = true)).
Proof.
  intros Hfire. rewrite (fire_app _ _ _ Hfire). split.
  - by intros i data ->.
  - intros Hne. destruct e; lazy beta iota; try done.
    + unfold loadIssues_start. by case_match.
    + unfold scopeIssue_start. by case_match.
    + unfold completeIssue_start. by case_match.
    + destruct r as [err|[] [err|data]]; try done.
      by destruct (Hne i data).
    + destruct (inFlight b !! i) as [[| k | k | k]|]; try done.
      * unfold scopeIssue_finish. by case_match.
      * unfold completeIssue_finish. by case_match.
      * unfold checkSessionStatus_finish. by case_match.
Qed.

Lemma issue_list_changes_on_successful_load_witness :
  fire (SessionArrives 0 (ok finishedSession))
       (send (PendingRefresh 1) (Some (GetSession "s1" "apk_key")) scopedBrowser)
  = Some {| app := finishedApp;
            localStorage := localStorage scopedBrowser;
            inFlight := [];
            network := (network scopedBrowser ++ [GetSession "s1" "apk_key"])%list;
            console := [] |}
  ∧ issues finishedApp = issues scopingApp.
Proof.
  assert (H : fire (SessionArrives 0 (ok finishedSession))
       (send (PendingRefresh 1) (Some (GetSession "s1" "apk_key")) scopedBrowser)
    = Some {| app := finishedApp;
              localStorage := localStorage scopedBrowser;
              inFlight := [];
              network := (network scopedBrowser ++ [GetSession "s1" "apk_key"])%list;
              console := [] |}) by (vm_compute; reflexivity).
  split; [exact H|].
  apply (proj2 (issue_list_changes_on_successful_load _ _ _ H)).
  discriminate.
Defined.

(** ** The footprint of a status refresh *)

(** X12: a status response touches one record and nothing else.  Whether
    it succeeds or fails, the response to a refresh of issue [k] leaves
    [loading], the banner, the issue list, the dashboard flag, the three
    credentials, the storage, the requests sent and the record of every
    other issue as they were; it only takes its request out of the ones in
    flight. *)
Theorem refresh_response_footprint
    (b b' : Browser) (i : nat) (k : Z) (r : FetchResult Session.t) :
  inFlight b !! i = Some (PendingRefresh k) →
  fire (SessionArrives i r) b = Some b' →
  loading (app b') = loading (app b)
  ∧ error (app b') = error (app b)
  ∧ issues (app b') = issues (app b)
  ∧ configured (app b') = configured (app b)
  ∧ sameCredentials (app b) (app b')
  ∧ (∀ j, j ≠ k → sessions (app b') !! j = sessions (app b) !! j)
  ∧ localStorage b' = localStorage b
  ∧ network b' = network b
  ∧ inFlight b' = delete i (inFlight b).
Proof.
  intros Hp Hfire.
  assert (Hcred : sameCredentials (app b) (app b'))
    by (by apply (fire_sameCredentials (SessionArrives i r))).
  pose proof (fire_localStorage _ _ _ Hfire) as Hls.
  rewrite persistenceEffects_same in Hls by done.
  pose proof (fire_network _ _ _ Hfire) as Hnet. simpl in Hnet.
  rewrite app_nil_r in Hnet.
  pose proof (fire_app _ _ _ Hfire) as Happ. simpl in Happ, Hfire.
  rewrite Hp in Happ, Hfire. rewrite Happ.
  assert (Hfl : inFlight b' = delete i (inFlight b)).
  { destruct (checkSessionStatus_finish k r (app b)) as [st' err].
    simplify_eq. by rewrite inFlight_consoleError. }
  rewrite checkSessionStatus_finish_sessions.
  unfold checkSessionStatus_finish.
  destruct (awaitJson "Failed to check session status" r) as [err|data];
    simpl; repeat split; try done; try (by rewrite <- Happ; apply Hcred).
  intros j Hj. by rewrite lookup_insert_ne.
Qed.

Lemma refresh_response_footprint_witness :
  inFlight (send (PendingRefresh 1) (Some (GetSession "s1" "apk_key"))
              scopedBrowser) !! 0%nat
  = Some (PendingRefresh 1)
  ∧ fire (SessionArrives 0 (Responded false (inl ThrownValue)))
         (send (PendingRefresh 1) (Some (GetSession "s1" "apk_key")) scopedBrowser)
    = Some {| app := scopingApp;
              localStorage := localStorage scopedBrowser;
              inFlight := [];
              network := (network scopedBrowser ++ [GetSession "s1" "apk_key"])%list;
              console := [ThrownError "Failed to check session status"] |}
  ∧ error scopingApp = "".
Proof.
  assert (H : fire (SessionArrives 0 (Responded false (inl ThrownValue)))
         (send (PendingRefresh 1) (Some (GetSession "s1" "apk_key")) scopedBrowser)
    = Some {| app := scopingApp;
              localStorage := localStorage scopedBrowser;
              inFlight := [];
              network := (network scopedBrowser ++ [GetSession "s1" "apk_key"])%list;
              console := [ThrownError "Failed to check session status"] |})
    by (vm_compute; reflexivity).
  split; [reflexivity|]. split; [exact H|].
  exact (proj1 (proj2 (refresh_response_footprint
                         (send (PendingRefresh 1)
                            (Some (GetSession "s1" "apk_key")) scopedBrowser)
                         _ 0 1 _ eq_refl H))).
Defined.

(** ** The banner *)

Lemma fire_quietWhileLoading e b b' :
  fire e b = Some b' → quietWhileLoading b → quietWhileLoading b'.
Proof.
  unfold quietWhileLoading. intros Hfire Hinv.
  rewrite (fire_app _ _ _ Hfire).
  destruct e; lazy beta iota; try done.
  - unfold loadIssues_start. case_match; [|done].
    simpl. intros Hl. simpl in Hfire. unfold connectDisabled in Hfire.
    rewrite Hl in Hfire. by destruct (configured (app b)).
  - unfold scopeIssue_start. case_match; [|done].
    simpl. intros Hl. simpl in Hfire. unfold scopeDisabled in Hfire.
    rewrite Hl in Hfire. simpl in Hfire. by rewrite !andb_false_r in Hfire.
  - unfold completeIssue_start. case_match; [|done].
    simpl. intros Hl. simpl in Hfire. unfold completeDisabled in Hfire.
    rewrite Hl in Hfire. simpl in Hfire. by rewrite !andb_false_r in Hfire.
  - destruct (inFlight b !! i) as [[| k | k | k]|]; try done.
    unfold checkSessionStatus_finish. by case_match.
Qed.

Lemma in_flight_user_request_loading b i p :
  loadingTracksRequest b → inFlight b !! i = Some p → userRequest p = true →
  loading (app b) = true.
Proof.
  unfold loadingTracksRequest. intros Hinv Hp Hu.
  destruct (loading (app b)); [done|].
  pose proof (proj1 (countUser_zero _) Hinv p (list_elem_of_lookup_2 _ _ _ Hp)).
  congruence.
Qed.

(** X13: no banner while a user action is in flight, and none after it
    succeeds.  In every state the page can reach, [loading] up means the
    banner is empty; so when the response to a load, scope or complete
    request arrives and is a success, the page is left with [loading] down
    and no banner, whatever was shown before the action started. *)
Theorem success_leaves_no_banner (b : Browser) :
  reachable b →
  (loading (app b) = true → error (app b) = "")
  ∧ (∀ i data b', fire (IssuesArrive i (ok data)) b = Some b' →
       error (app b') = "" ∧ loading (app b') = false)
  ∧ (∀ i data b' p, fire (SessionArrives i (ok data)) b = Some b' →
       inFlight b !! i = Some p → userRequest p = true →
       error (app b') = "" ∧ loading (app b') = false).
Proof.
  intros Hreach.
  pose proof (reachable_loadingTracksRequest b Hreach) as Hload.
  assert (Hquiet : quietWhileLoading b).
  { destruct Hreach as (storage & events & Hrun).
    apply (run_invariant quietWhileLoading _ _ _ fire_quietWhileLoading Hrun).
    done. }
  split; [done|]. split.
  - intros i data b' Hfire. rewrite (fire_app _ _ _ Hfire). simpl.
    split; [|done]. apply Hquiet. simpl in Hfire.
    destruct (inFlight b !! i) as [[]|] eqn:Hp; try done.
    by apply (in_flight_user_request_loading b i PendingLoad).
  - intros i data b' p Hfire Hp Hu. rewrite (fire_app _ _ _ Hfire).
    pose proof (in_flight_user_request_loading b i p Hload Hp Hu) as Hl.
    lazy beta iota. rewrite Hp. simpl in Hfire. rewrite Hp in Hfire.
    destruct p; try done; simpl; (split; [by apply Hquiet|done]).
Qed.

Lemma success_leaves_no_banner_witness :
  reachable scopeClickedBrowser
  ∧ fire (SessionArrives 0 (ok scopingSession)) scopeClickedBrowser
    = Some scopedBrowser
  ∧ inFlight scopeClickedBrowser !! 0%nat = Some (PendingScope 1)
  ∧ error (app scopedBrowser) = "" ∧ loading (app scopedBrowser) = false.
Proof.
  assert (Hreach : reachable scopeClickedBrowser)
    by (exists ∅, (connectEvents ++ [ClickScope 1])%list;
        vm_compute; reflexivity).
  assert (Hfire : fire (SessionArrives 0 (ok scopingSession)) scopeClickedBrowser
                  = Some scopedBrowser) by (vm_compute; reflexivity).
  split; [exact Hreach|]. split; [exact Hfire|]. split; [reflexivity|].
  exact (proj2 (proj2 (success_leaves_no_banner scopeClickedBrowser Hreach))
           0%nat scopingSession scopedBrowser (PendingScope 1)
           Hfire eq_refl eq_refl).
Defined.

(** ** The connect button *)

(** X14: the connect button never lets [loadIssues] fail its own check.
    Whenever a click on it is handled, exactly one request for the issue
    list goes out, with the repository and the token of the form, [loading]
    goes up and the banner is cleared; so the message asking for the
    repository and the token is never the result of a click. *)
Theorem connect_always_sends (b b' : Browser) :
  fire ClickConnect b = Some b' →
  network b' = (network b ++ [GetIssues (repo (app b)) (githubToken (app b))])%list
  ∧ inFlight b' = (inFlight b ++ [PendingLoad])%list
  ∧ app b' = setError "" (setLoading true (app b))
  ∧ devinApiKey (app b) ≠ "".
Proof.
  simpl. unfold connectDisabled, loadIssues_start.
  destruct (configured (app b)); [done|].
  destruct (loading (app b)); [done|].
  destruct (truthy (repo (app b))); [|done].
  destruct (truthy (githubToken (app b))); [|done].
  destruct (truthy (devinApiKey (app b))) eqn:Hk; [|done].
  simpl. intros [= <-]. repeat split. by apply truthy_true.
Qed.

Lemma connect_always_sends_witness :
  fire ClickConnect (mount (localStorage scopedBrowser))
  = Some (send PendingLoad (Some (GetIssues "octo/demo" "ghp_token"))
            (commit (setError "" (setLoading true
                       (app (mount (localStorage scopedBrowser)))))
               (mount (localStorage scopedBrowser))))
  ∧ network (send PendingLoad (Some (GetIssues "octo/demo" "ghp_token"))
            (commit (setError "" (setLoading true
                       (app (mount (localStorage scopedBrowser)))))
               (mount (localStorage scopedBrowser))))
    = [GetIssues "octo/demo" "ghp_token"].
Proof.
  assert (H : fire ClickConnect (mount (localStorage scopedBrowser))
    = Some (send PendingLoad (Some (GetIssues "octo/demo" "ghp_token"))
            (commit (setError "" (setLoading true
                       (app (mount (localStorage scopedBrowser)))))
               (mount (localStorage scopedBrowser)))))
    by (vm_compute; reflexivity).
  split; [exact H|].
  exact (proj1 (connect_always_sends _ _ H)).
Defined.
